(** * video2x: the Interpolator worker (video2x/interpolator.py)

    A shallow embedding of [Interpolator.run]: the control loop of one
    interpolation worker, the scene-change test in front of the frame
    processor, and the index arithmetic that places the results in the
    shared list of processed frames.

    The difference ratio is computed in doubles, as Python computes it
    ([difference_ratio]); [Exact.difference_ratio] is the same formula in
    exact arithmetic.  The loop takes the estimator as a parameter, so
    what is proved about the loop holds for both. *)

From Stdlib Require Import QArith Qfield Lqa SpecFloat.
From stdpp Require Import gmap strings list.

Local Open Scope Z_scope.

(** ** Python exceptions and results *)

Inductive exn : Type :=
  | ValueError
  | ZeroDivisionError
  | KeyError (key : string)
  | IndexError
  | OverflowError
  | RuntimeError (msg : string)
  | SystemExit
  | KeyboardInterrupt.

Inductive result (A : Type) : Type :=
  | Ok (a : A)
  | Raise (e : exn).
Arguments Ok {A} a.
Arguments Raise {A} e.

#[global] Instance result_ret : MRet result := fun A a => Ok a.
#[global] Instance result_bind : MBind result := fun A B f r =>
  match r with
  | Ok a => f a
  | Raise e => Raise e
  end.

(** ** Doubles

    A Python float is an IEEE 754 double.  [spec_float] with precision 53
    and maximal exponent 1024 is the Standard Library's specification of
    doubles; every operation rounds to the nearest double, ties to
    even. *)

Module Float.

Definition prec : Z := 53.
Definition emax : Z := 1024.

Definition zero : spec_float := S754_zero false.
Definition add : spec_float -> spec_float -> spec_float := SFadd prec emax.
Definition sub : spec_float -> spec_float -> spec_float := SFsub prec emax.
Definition div : spec_float -> spec_float -> spec_float := SFdiv prec emax.
Definition mul : spec_float -> spec_float -> spec_float := SFmul prec emax.

(** The conversion of an [int] operand: the nearest double, and
    [OverflowError] when the integer is too large for one. *)
Definition of_int (z : Z) : result spec_float :=
  match binary_normalize prec emax z 0 false with
  | S754_infinity _ => Raise OverflowError
  | f => Ok f
  end.

(** Python's [sum] over a list of floats, as the interpreter up to
    release 3.11 computes it: from 0, left to right, each addition
    rounded. *)
Definition sum (l : list spec_float) : spec_float := fold_left add l zero.

(** Python's [sum] from release 3.12 on: the rounding errors of the
    additions are collected in a second double (Neumaier's summation)
    and added at the end. *)
Definition is_finite (f : spec_float) : bool :=
  match f with
  | S754_zero _ | S754_finite _ _ _ => true
  | S754_infinity _ | S754_nan => false
  end.

Definition is_zero (f : spec_float) : bool :=
  match f with
  | S754_zero _ => true
  | _ => false
  end.

Fixpoint compensate (f c : spec_float) (l : list spec_float)
    : spec_float * spec_float :=
  match l with
  | [] => (f, c)
  | x :: l' =>
      let t := add f x in
      let c' := if SFleb (SFabs x) (SFabs f)
                then add c (add (sub f t) x)
                else add c (add (sub x t) f) in
      compensate t c' l'
  end.

Definition compensated_sum (l : list spec_float) : spec_float :=
  match l with
  | [] => zero
  | x :: l' =>
      let '(f, c) := compensate (add zero x) zero l' in
      if negb (is_zero c) && is_finite c then add f c else f
  end.

(** The rational number that a finite double denotes. *)
Definition value (f : spec_float) : option Q :=
  match f with
  | S754_zero _ => Some 0%Q
  | S754_finite s m e =>
      let n := if s then Zneg m else Zpos m in
      Some (match e with
            | Zneg p => Qmake n (Pos.shiftl 1 (Npos p))
            | _ => inject_Z (n * 2 ^ e)
            end)
  | S754_infinity _ | S754_nan => None
  end.

(** The sign bit of the double is clear, or the double is no number. *)
Definition not_negative (f : spec_float) : bool :=
  match f with
  | S754_zero s | S754_infinity s | S754_finite s _ _ => negb s
  | S754_nan => true
  end.

End Float.

(** The sum of a list of exact fractions: left to right, starting at 0. *)
Definition sum (l : list Q) : Q := fold_left Qplus l 0%Q.

Definition Zsum (l : list Z) : Z := fold_left Z.add l 0.

(** [a < b] on the values of two finite doubles, as a boolean. *)
Definition Qltb (a b : Q) : bool := negb (Qle_bool b a).

(** ** Images (PIL)

    An image is a list of bands (channels); a band is a list of rows of
    pixel values.  The frames of a video are 8-bit images: every pixel
    value lies between 0 and 255. *)

Definition Band : Type := list (list Z).
Definition Image : Type := list Band.

Definition pixels (band : Band) : list Z := concat band.

Definition is_eight_bit (image : Image) : bool :=
  forallb (forallb (forallb (fun x => (0 <=? x) && (x <=? 255)))) image.

Module ImageChops.

(** [ImageChops.difference(image1, image2)]: the absolute value of the
    pixel-by-pixel difference, band by band.  It is defined on 8-bit
    images ([ValueError]: image has wrong mode) with as many bands
    ([ValueError]: images do not match); the result is cropped to the
    smaller of the two sizes. *)
Definition difference (image1 image2 : Image) : result Image :=
  if negb (is_eight_bit image1 && is_eight_bit image2)
  then Raise ValueError
  else if (length image1 =? length image2)%nat
  then Ok (zip_with (zip_with (zip_with (fun x y => Z.abs (x - y))))
                    image1 image2)
  else Raise ValueError.

End ImageChops.

Module ImageStat.

(** [Stat(image).sum] and [Stat(image).count], one entry per band.
    The sum of a band is a whole number, held in a double. *)
Definition band_sum (band : Band) : Z := Zsum (pixels band).
Definition band_count (band : Band) : Z := Z.of_nat (length (pixels band)).

(** One entry of [Stat(image).mean]: [sum[i] / count[i]], a division of
    doubles.  A band without pixels has count 0 ([ZeroDivisionError],
    as Pillow raises it before release 12). *)
Definition band_mean (band : Band) : result spec_float :=
  if band_count band =? 0 then Raise ZeroDivisionError
  else
    s ← Float.of_int (band_sum band);
    c ← Float.of_int (band_count band);
    Ok (Float.div s c).

(** [Stat(image).mean]: the average pixel level of each band. *)
Fixpoint mean (image : Image) : result (list spec_float) :=
  match image with
  | [] => Ok []
  | band :: bands =>
      m ← band_mean band;
      ms ← mean bands;
      Ok (m :: ms)
  end.

End ImageStat.

(** Lines 85-89 of [Interpolator.run]: the difference estimator.
    [sum(mean) / (len(mean) * 255) * 100] on doubles; the two [int]
    operands are converted to doubles first.  [float_sum] is what the
    interpreter's [sum] does on a list of doubles: [Float.sum] up to
    Python 3.11, [Float.compensated_sum] from 3.12 on.  The two agree on
    the mean of a single band and can differ in the last bit on several
    bands. *)
Definition difference_ratio (float_sum : list spec_float -> spec_float)
    (image0 image1 : Image) : result spec_float :=
  difference ← ImageChops.difference image0 image1;
  difference_stat_mean ← ImageStat.mean difference;
  if (length difference_stat_mean =? 0)%nat then Raise ZeroDivisionError
  else
    divisor ← Float.of_int (Z.of_nat (length difference_stat_mean) * 255);
    hundred ← Float.of_int 100;
    Ok (Float.mul (Float.div (float_sum difference_stat_mean) divisor) hundred).

(** The ratio as line 93 compares it with the threshold: the value of
    the double.  (A ratio that is not a finite number does not arise from
    8-bit frames; the model stops there with [OverflowError].) *)
Definition double_ratio (float_sum : list spec_float -> spec_float)
    (image0 image1 : Image) : result Q :=
  ratio ← difference_ratio float_sum image0 image1;
  match Float.value ratio with
  | Some q => Ok q
  | None => Raise OverflowError
  end.

(** The estimator under either interpreter. *)
Definition ratio_3_11 : Image -> Image -> result Q := double_ratio Float.sum.
Definition ratio_3_12 : Image -> Image -> result Q :=
  double_ratio Float.compensated_sum.

(** ** The estimator in exact arithmetic

    The same formula on exact fractions, for pixel values of any size:
    what the doubles approximate. *)

Module Exact.

Definition difference (image1 image2 : Image) : result Image :=
  if (length image1 =? length image2)%nat
  then Ok (zip_with (zip_with (zip_with (fun x y => Z.abs (x - y))))
                    image1 image2)
  else Raise ValueError.

Definition band_sum (band : Band) : Z := Zsum (pixels band).
Definition band_count (band : Band) : Z := Z.of_nat (length (pixels band)).

Definition band_mean (band : Band) : result Q :=
  if band_count band =? 0 then Raise ZeroDivisionError
  else Ok (inject_Z (band_sum band) / inject_Z (band_count band))%Q.

Fixpoint mean (image : Image) : result (list Q) :=
  match image with
  | [] => Ok []
  | band :: bands =>
      m ← band_mean band;
      ms ← mean bands;
      Ok (m :: ms)
  end.

Definition difference_ratio (image0 image1 : Image) : result Q :=
  difference ← difference image0 image1;
  difference_stat_mean ← mean difference;
  if (length difference_stat_mean =? 0)%nat then Raise ZeroDivisionError
  else Ok (sum difference_stat_mean
           / inject_Z (Z.of_nat (length difference_stat_mean) * 255)
           * 100)%Q.

End Exact.

(** ** The estimator as the specification words it

    The formula of the specification, written from its words and on its
    own: the absolute differences of the pixels of a channel, their
    mean, the average of the means over the channels, divided by 255 and
    scaled to a percentage.  First with exact fractions. *)

Fixpoint flatten (rows : list (list Z)) : list Z :=
  match rows with
  | [] => []
  | row :: rows' => row ++ flatten rows'
  end.

Fixpoint absolute_differences (xs ys : list Z) : list Z :=
  match xs, ys with
  | x :: xs', y :: ys' => Z.abs (x - y) :: absolute_differences xs' ys'
  | _, _ => []
  end.

Fixpoint total (l : list Z) : Z :=
  match l with
  | [] => 0
  | x :: l' => x + total l'
  end.

Fixpoint Qtotal (l : list Q) : Q :=
  match l with
  | [] => 0%Q
  | x :: l' => (x + Qtotal l')%Q
  end.

Definition channel_mean_abs_difference (band0 band1 : Band) : Q :=
  let differences := absolute_differences (flatten band0) (flatten band1) in
  (inject_Z (total differences) / inject_Z (Z.of_nat (length differences)))%Q.

Fixpoint channel_means (image0 image1 : Image) : list Q :=
  match image0, image1 with
  | band0 :: bands0, band1 :: bands1 =>
      channel_mean_abs_difference band0 band1 :: channel_means bands0 bands1
  | _, _ => []
  end.

Definition spec_difference_ratio (image0 image1 : Image) : Q :=
  let means := channel_means image0 image1 in
  (Qtotal means / inject_Z (Z.of_nat (length means)) / 255 * 100)%Q.

(** Then in doubles: each mean is the quotient of the sum of the
    differences by their number, rounded to the nearest double; the
    means are summed as the interpreter sums doubles ([float_sum]); the
    sum is divided by 255 times the number of channels and multiplied by
    100, each time rounded to the nearest double.  Where the formula has
    nothing to average it divides by zero. *)
Definition nearest_double (z : Z) : result spec_float :=
  match binary_normalize 53 1024 z 0 false with
  | S754_infinity _ => Raise OverflowError
  | f => Ok f
  end.

Definition rounded_channel_mean (band0 band1 : Band) : result spec_float :=
  let differences := absolute_differences (flatten band0) (flatten band1) in
  match differences with
  | [] => Raise ZeroDivisionError
  | _ :: _ =>
      s ← nearest_double (total differences);
      c ← nearest_double (Z.of_nat (length differences));
      Ok (SFdiv 53 1024 s c)
  end.

Fixpoint rounded_channel_means (image0 image1 : Image)
    : result (list spec_float) :=
  match image0, image1 with
  | band0 :: bands0, band1 :: bands1 =>
      m ← rounded_channel_mean band0 band1;
      ms ← rounded_channel_means bands0 bands1;
      Ok (m :: ms)
  | _, _ => Ok []
  end.

Definition rounded_difference_ratio
    (float_sum : list spec_float -> spec_float) (image0 image1 : Image)
    : result spec_float :=
  means ← rounded_channel_means image0 image1;
  match means with
  | [] => Raise ZeroDivisionError
  | _ :: _ =>
      divisor ← nearest_double (255 * Z.of_nat (length means));
      hundred ← nearest_double 100;
      Ok (SFmul 53 1024 (SFdiv 53 1024 (float_sum means) divisor) hundred)
  end.

(** Two images have identical dimensions: as many bands, as many rows in
    each band, as many pixels in each row. *)
Definition same_dimensions (image0 image1 : Image) : Prop :=
  Forall2 (Forall2 (fun row0 row1 : list Z => length row0 = length row1))
          image0 image1.

(** An image has at least one band, and every band at least one pixel. *)
Definition nonempty (image : Image) : Prop :=
  image ≠ [] ∧ Forall (fun band => pixels band ≠ []) image.

(** ** Jobs, processors and the worker's state *)

(** One entry of the processing queue:
    [(frame_index, (image0, image1), (difference_threshold, algorithm))].
    [image0] is [None] for the job that carries the first frame. *)
Record Job : Type := mkJob {
  frame_index : Z;
  image0 : option Image;
  image1 : Image;
  difference_threshold : Q;
  algorithm : string;
}.

(** The classes that [ALGORITHM_CLASSES] can hold. *)
Inductive ProcessorClass : Type := Rife.

Definition ALGORITHM_CLASSES : gmap string ProcessorClass :=
  {[ "rife"%string := Rife ]}.

(** A processor object: its class, the device index given to the
    constructor, and the object's identity (the number of processor
    objects the worker had constructed before it). *)
Record Processor : Type := mkProcessor {
  proc_class : ProcessorClass;
  proc_gpuid : Z;
  proc_id : nat;
}.

(** What the loop does to the outside world, recorded as it happens. *)
Inductive event : Type :=
  | EvInfo (msg : string)
  | EvSleep
  | EvGet (job : option Job)
  | EvDifference (image0 image1 : Image)
  | EvClassLookup (algorithm : string)
  | EvConstruct (cls : ProcessorClass) (gpuid : Z)
  | EvProcess (processor_object : Processor) (image0 image1 : Image)
  | EvSetitem (index : Z) (value : Image)
  | EvException (e : exn).

(** The worker ([self]) together with the shared objects it holds:
    the job queue, the list of processed frames and the pause flag.
    [trace] lists the events so far, the most recent first. *)
Record State : Type := mkState {
  running : bool;
  pause : bool;
  processing_queue : list Job;
  processed_frames : list (option Image);
  processor_objects : gmap string Processor;
  constructed : nat;
  trace : list event;
}.

Definition set_running (b : bool) (st : State) : State :=
  mkState b (pause st) (processing_queue st) (processed_frames st)
          (processor_objects st) (constructed st) (trace st).

Definition set_pause (b : bool) (st : State) : State :=
  mkState (running st) b (processing_queue st) (processed_frames st)
          (processor_objects st) (constructed st) (trace st).

Definition set_processing_queue (q : list Job) (st : State) : State :=
  mkState (running st) (pause st) q (processed_frames st)
          (processor_objects st) (constructed st) (trace st).

Definition set_processed_frames (l : list (option Image)) (st : State) : State :=
  mkState (running st) (pause st) (processing_queue st) l
          (processor_objects st) (constructed st) (trace st).

Definition set_processor_objects (m : gmap string Processor) (st : State) : State :=
  mkState (running st) (pause st) (processing_queue st) (processed_frames st)
          m (constructed st) (trace st).

Definition set_constructed (n : nat) (st : State) : State :=
  mkState (running st) (pause st) (processing_queue st) (processed_frames st)
          (processor_objects st) n (trace st).

Definition emit (e : event) (st : State) : State :=
  mkState (running st) (pause st) (processing_queue st) (processed_frames st)
          (processor_objects st) (constructed st) (e :: trace st).

(** ** The monad of the loop body: state and exceptions *)

Definition M (A : Type) : Type := State -> result A * State.

#[global] Instance M_ret : MRet M := fun A a st => (Ok a, st).
#[global] Instance M_bind : MBind M := fun A B f m st =>
  match m st with
  | (Ok a, st') => f a st'
  | (Raise e, st') => (Raise e, st')
  end.

Definition raise {A : Type} (e : exn) : M A := fun st => (Raise e, st).
Definition gets {A : Type} (f : State -> A) : M A := fun st => (Ok (f st), st).
Definition modify (f : State -> State) : M unit := fun st => (Ok tt, f st).
Definition lift {A : Type} (r : result A) : M A := fun st => (r, st).

(** [time.sleep(0.1)] *)
Definition sleep : M unit := modify (emit EvSleep).

(** [self.processing_queue.get(False)]: the job at the head of the queue,
    or [None] for [queue.Empty]. *)
Definition queue_get : M (option Job) := fun st =>
  match processing_queue st with
  | [] => (Ok None, emit (EvGet None) st)
  | job :: rest =>
      (Ok (Some job), emit (EvGet (Some job)) (set_processing_queue rest st))
  end.

(** Python's [l[i] = v]: a negative index counts from the end, an index
    out of range raises [IndexError]. *)
Definition list_setitem {A : Type} (l : list A) (i : Z) (v : A) : result (list A) :=
  let n := Z.of_nat (length l) in
  let j := if i <? 0 then i + n else i in
  if (0 <=? j) && (j <? n) then Ok (<[Z.to_nat j := v]> l)
  else Raise IndexError.

(** [self.processed_frames[i] = value] *)
Definition setitem (i : Z) (value : Image) : M unit := fun st =>
  match list_setitem (processed_frames st) i (Some value) with
  | Ok l => (Ok tt, emit (EvSetitem i value) (set_processed_frames l st))
  | Raise e => (Raise e, st)
  end.

(** [ALGORITHM_CLASSES[algorithm]] *)
Definition lookup_class (algorithm : string) : M ProcessorClass :=
  modify (emit (EvClassLookup algorithm));;
  match ALGORITHM_CLASSES !! algorithm with
  | Some cls => mret cls
  | None => raise (KeyError algorithm)
  end.

Inductive outcome : Type := Continue | Break.

(** What the rest of the pipeline does between two iterations of the
    loop: deliver SIGTERM to the worker, set or clear the pause flag,
    put a job on the queue.  A keyboard interrupt (SIGINT) is not among
    them: in the model [KeyboardInterrupt] reaches the first [except]
    clause only when the processor raises it. *)
Inductive env_action : Type :=
  | Sigterm
  | SetPause (b : bool)
  | Put (job : Job).

Inductive run_status : Type := Exited | StillRunning.

(** [Interpolator._stop], the SIGTERM handler. *)
Definition _stop (st : State) : State := set_running false st.

Definition env_step (st : State) (a : env_action) : State :=
  match a with
  | Sigterm => _stop st
  | SetPause b => set_pause b st
  | Put job => set_processing_queue (processing_queue st ++ [job]) st
  end.

(** [Interpolator.__init__]: the worker is not running yet and has no
    processor object.  The handler it registers for SIGTERM is [_stop],
    which [env_step] runs on [Sigterm]. *)
Definition __init__ (processing_queue : list Job)
    (processed_frames : list (option Image)) (pause : bool) : State :=
  mkState false pause processing_queue processed_frames ∅ 0 [].

Definition is_get (e : event) : bool :=
  match e with EvGet (Some _) => true | _ => false end.

Definition is_setitem (e : event) : bool :=
  match e with EvSetitem _ _ => true | _ => false end.

Definition is_processor_event (e : event) : bool :=
  match e with
  | EvClassLookup _ | EvConstruct _ _ | EvProcess _ _ _ => true
  | _ => false
  end.

(** The events of [st'] that [st] had not yet, the most recent first. *)
Definition new_events (st st' : State) : list event :=
  take (length (trace st') - length (trace st))%nat (trace st').

(** Slot [i] of the processed frames holds the image [im]. *)
Definition slot (st : State) (i : Z) (im : Image) : Prop :=
  0 <= i ∧ processed_frames st !! Z.to_nat i = Some (Some im).

(** What a step leaves alone: the flags, the queue and the processed
    frames; the cache only grows, and the new events are neither
    dequeues nor writes. *)
Definition quiet (st st' : State) : Prop :=
  running st' = running st
  ∧ pause st' = pause st
  ∧ processing_queue st' = processing_queue st
  ∧ processed_frames st' = processed_frames st
  ∧ processor_objects st ⊆ processor_objects st'
  ∧ ∃ l, trace st' = l ++ trace st
         ∧ Forall (fun e => is_get e = false ∧ is_setitem e = false) l.

(** What the writes of a job change: the processed frames, and the trace
    by write events. *)
Definition writes_only (st st' : State) : Prop :=
  running st' = running st
  ∧ pause st' = pause st
  ∧ processing_queue st' = processing_queue st
  ∧ processor_objects st' = processor_objects st
  ∧ constructed st' = constructed st
  ∧ ∃ l, trace st' = l ++ trace st
         ∧ Forall (fun e => is_setitem e = true) l.

(** A stub processor for the examples: construction always succeeds and
    [process] returns the band-wise maximum of the two frames. *)
Definition stub_init (gpuid : Z) : result unit := Ok tt.
Definition stub_process (gpuid : Z) (a b : Image) : result Image :=
  Ok (zip_with (zip_with (zip_with Z.max)) a b).

(** A runtime without its model files: construction fails. *)
Definition broken_init (gpuid : Z) : result unit :=
  Raise (RuntimeError "model not found").

(** A three-frame sequence for the examples: [F2] is close to [F1],
    [F3] is a scene change. *)
Definition F1 : Image := [[[10; 20]; [30; 40]]].
Definition F2 : Image := [[[12; 20]; [30; 44]]].
Definition F3 : Image := [[[200; 220]; [0; 0]]].

Definition job_first : Job := mkJob 0 None F1 10 "rife".
Definition job_one : Job := mkJob 1 (Some F1) F2 10 "rife".
Definition job_two : Job := mkJob 2 (Some F2) F3 10 "rife".

(** The first of them asking for an algorithm that is not registered. *)
Definition job_one_unknown : Job := mkJob 1 (Some F1) F2 10 "dain".

(** A started worker with the given queue and pause flag, five empty
    slots and an empty cache. *)
Definition started (queue : list Job) (paused : bool) : State :=
  set_running true (__init__ queue (replicate 5 None) paused).

(** Every pixel of the image is an 8-bit value. *)
Definition eight_bit (image : Image) : Prop :=
  Forall (Forall (Forall (fun x => 0 <= x <= 255))) image.

(** The jobs taken from the queue according to a list of events (the
    most recent first), in the order they were taken. *)
Definition dequeued (events : list event) : list Job :=
  omap (fun e => match e with EvGet (Some job) => Some job | _ => None end)
       (rev events).

(** The slots a job writes to when its frame index is positive. *)
Definition job_slots (job : Job) : list Z :=
  (if frame_index job =? 1 then [0] else [])
  ++ [frame_index job * 2 - 1; frame_index job * 2].

(** A cache as a worker can build it: every entry is keyed by a
    registered algorithm and holds an object of that algorithm's class,
    built for device 0 and numbered below the count of constructed
    objects; there are as many entries as constructed objects. *)
Definition cache_ok (st : State) : Prop :=
  (∀ name p, processor_objects st !! name = Some p ->
     ALGORITHM_CLASSES !! name = Some (proc_class p)
     ∧ proc_gpuid p = 0
     ∧ (proc_id p < constructed st)%nat)
  ∧ size (processor_objects st) = constructed st.

(** A frame for the edge cases: its second band makes the band counts
    differ. *)
Definition F_two_bands : Image := [[[10; 20]; [30; 40]]; [[0; 0]; [0; 0]]].

(** A processor whose [process] fails. *)
Definition failing_process (gpuid : Z) (a b : Image) : result Image :=
  Raise (RuntimeError "vkQueueSubmit failed").

(** The jobs that a list of environment actions puts on the queue. *)
Definition put_jobs (actions : list env_action) : list Job :=
  omap (fun a => match a with Put job => Some job | _ => None end) actions.

(** Jobs for the edge cases: a frame index beyond the five slots, a
    frame index of 0 on a job that carries a first frame, frames with
    different band counts, and thresholds of 0 and above 100. *)
Definition job_three : Job := mkJob 3 (Some F2) F3 10 "rife".
Definition job_zero : Job := mkJob 0 (Some F2) F3 10 "rife".
Definition job_mismatch : Job := mkJob 1 (Some F_two_bands) F1 10 "rife".
Definition job_never : Job := mkJob 1 (Some F1) F2 0 "rife".
Definition job_always : Job := mkJob 2 (Some F2) F3 (101 # 1) "rife".

(** Frames whose ratio falls next to a threshold.  One pixel of five
    differs by 51: the exact ratio is 4, the doubles give
    3.9999999999999996.  One pixel of twenty differs by 153: the exact
    ratio is 3, the doubles give 3.0000000000000004. *)
Definition F_dark5 : Image := [[[0; 0; 0; 0; 0]]].
Definition F_spot5 : Image := [[[51; 0; 0; 0; 0]]].
Definition F_dark20 : Image := [[replicate 20 0]].
Definition F_spot20 : Image := [[153 :: replicate 19 0]].

(** Three bands of ten pixels whose differences add up to 1, 2 and 3:
    the means are 0.1, 0.2 and 0.3, which the two summations add up to
    different doubles. *)
Definition F_dark30 : Image :=
  [[replicate 10 0]; [replicate 10 0]; [replicate 10 0]].
Definition F_spot30 : Image :=
  [[1 :: replicate 9 0]; [2 :: replicate 9 0]; [3 :: replicate 9 0]].

Definition below_4 : Q := 9007199254740991 # 2251799813685248.
Definition above_3 : Q := 6755399441055745 # 2251799813685248.

(** Jobs on these frames: a threshold of 4.0 on the first pair, with
    the registered algorithm and with an unknown one; a threshold of
    3.0000000000000004 on the second pair, with an unknown algorithm,
    for the frame indices 2 and 0. *)
Definition job_below : Job := mkJob 1 (Some F_dark5) F_spot5 4 "rife".
Definition job_below_unknown : Job := mkJob 1 (Some F_dark5) F_spot5 4 "dain".
Definition job_at : Job := mkJob 2 (Some F_dark20) F_spot20 above_3 "dain".
Definition job_at_zero : Job := mkJob 0 (Some F_dark20) F_spot20 above_3 "dain".

(** A started worker whose processed frames have only four slots. *)
Definition started_short (queue : list Job) : State :=
  set_running true (__init__ queue (replicate 4 None) false).

Section Worker.

(** The frame processor is external: [Rife_init gpuid] is what
    [Rife(gpuid)] does (it may fail), [Rife_process gpuid a b] is what
    [process(a, b)] returns on an object built for that device. *)
Variable Rife_init : Z -> result unit.
Variable Rife_process : Z -> Image -> Image -> result Image.

(** The loop is read for any difference estimator: [estimator a b] is
    the ratio that lines 85-89 compute from two frames, as the value of
    the double, or the exception they raise.  The source's estimator is
    [double_ratio float_sum], with the [sum] of the interpreter. *)
Variable estimator : Image -> Image -> result Q.

(** Lines 85-89, as a step of the loop. *)
Definition estimate (image0 image1 : Image) : M Q :=
  modify (emit (EvDifference image0 image1));;
  lift (estimator image0 image1).

(** What the constructor of a class does. *)
Definition class_init (cls : ProcessorClass) (gpuid : Z) : result unit :=
  match cls with Rife => Rife_init gpuid end.

(** [cls(gpuid)]: a new processor object. *)
Definition construct (cls : ProcessorClass) (gpuid : Z) : M Processor :=
  modify (emit (EvConstruct cls gpuid));;
  lift (class_init cls gpuid);;
  n ← gets constructed;
  modify (set_constructed (S n));;
  mret (mkProcessor cls gpuid n).

(** What [processor_object.process(image0, image1)] returns. *)
Definition process_output (processor_object : Processor)
    (image0 image1 : Image) : result Image :=
  match proc_class processor_object with
  | Rife => Rife_process (proc_gpuid processor_object) image0 image1
  end.

(** [processor_object.process(image0, image1)] *)
Definition process (processor_object : Processor) (image0 image1 : Image)
    : M Image :=
  modify (emit (EvProcess processor_object image0 image1));;
  lift (process_output processor_object image0 image1).

(** Lines 97-100: select the processor object of an algorithm, create
    a new one if none is available. *)
Definition get_or_create (algorithm : string) : M Processor :=
  cached ← gets (fun st => processor_objects st !! algorithm);
  match cached with
  | Some processor_object => mret processor_object
  | None =>
      cls ← lookup_class algorithm;
      processor_object ← construct cls 0;
      modify (fun st =>
        set_processor_objects
          (<[algorithm := processor_object]> (processor_objects st)) st);;
      mret processor_object
  end.

(** Lines 93-106: the scene-change test.  Below the threshold the
    frame is interpolated by the processor, otherwise the first frame
    is used again. *)
Definition interpolated (job : Job) (image0 : Image) (difference_ratio : Q)
    : M Image :=
  if Qltb difference_ratio (difference_threshold job)
  then
    processor_object ← get_or_create (algorithm job);
    process processor_object image0 (image1 job)
  else mret image0.

(** Lines 108-111: the results go to the list of processed frames. *)
Definition write_frames (job : Job) (image0 interpolated_image : Image)
    : M unit :=
  (if frame_index job =? 1 then setitem 0 image0 else mret tt);;
  setitem (frame_index job * 2 - 1) interpolated_image;;
  setitem (frame_index job * 2) (image1 job).

(** Lines 84-111: a job whose first frame is present. *)
Definition interpolate (job : Job) (image0 : Image) : M unit :=
  difference_ratio ← estimate image0 (image1 job);
  interpolated_image ← interpolated job image0 difference_ratio;
  write_frames job image0 interpolated_image.

(** Lines 63-111: the body of the [try] statement. *)
Definition loop_body : M unit :=
  gets pause ≫= λ paused : bool,
  if paused then sleep
  else
    queue_get ≫= λ next : option Job,
    match next with
    | None => sleep
    | Some job =>
        match image0 job with
        | None => mret tt
        | Some image0 => interpolate job image0
        end
    end.

(** One iteration of the [while] loop: the body and the two [except]
    clauses, both of which leave the loop. *)
Definition iteration (st : State) : outcome * State :=
  match loop_body st with
  | (Ok _, st') => (Continue, st')
  | (Raise e, st') =>
      match e with
      | SystemExit | KeyboardInterrupt => (Break, st')
      | _ => (Break, emit (EvException e) st')
      end
  end.

(** The [while self.running is True] loop.  The schedule gives, for
    each iteration, what the environment does before the next test of
    [self.running]; the loop is [StillRunning] when the schedule ends. *)
Fixpoint run_loop (schedule : list (list env_action)) (st : State)
    : run_status * State :=
  if running st then
    match schedule with
    | [] => (StillRunning, st)
    | actions :: schedule' =>
        match iteration st with
        | (Break, st') => (Exited, st')
        | (Continue, st') => run_loop schedule' (foldl env_step st' actions)
        end
    end
  else (Exited, st).

(** [Interpolator.run] *)
Definition run (schedule : list (list env_action)) (st : State)
    : run_status * State :=
  match run_loop schedule (emit (EvInfo "initiating") (set_running true st)) with
  | (Exited, st') => (Exited, emit (EvInfo "terminating") st')
  | (StillRunning, st') => (StillRunning, st')
  end.

(** ** The difference estimator *)

Lemma Zsum_fold (l : list Z) (a : Z) : fold_left Z.add l a = a + Zsum l.
Proof.
  unfold Zsum. revert a. induction l as [|x l IH]; intros a; simpl.
  - lia.
  - rewrite (IH (a + x)), (IH (0 + x)). lia.
Qed.

Lemma concat_zip_with {A B C : Type} (f : A -> B -> C)
    (rows0 : list (list A)) (rows1 : list (list B)) :
  Forall2 (fun r0 r1 => length r0 = length r1) rows0 rows1 ->
  concat (zip_with (zip_with f) rows0 rows1)
  = zip_with f (concat rows0) (concat rows1).
Proof.
  induction 1 as [|r0 r1 rows0 rows1 Hlen _ IH]; simpl; [done|].
  rewrite IH. symmetry. by apply zip_with_app.
Qed.

Lemma concat_length_same (rows0 rows1 : list (list Z)) :
  Forall2 (fun r0 r1 => length r0 = length r1) rows0 rows1 ->
  length (concat rows0) = length (concat rows1).
Proof.
  induction 1 as [|r0 r1 rows0 rows1 Hlen _ IH]; simpl; [done|].
  rewrite !length_app. lia.
Qed.

(** The specification's own helpers against the library's. *)
Lemma flatten_concat (rows : list (list Z)) : flatten rows = concat rows.
Proof. induction rows as [|r rows IH]; simpl; [done|]. by rewrite IH. Qed.

Lemma absolute_differences_zip_with (xs ys : list Z) :
  absolute_differences xs ys = zip_with (fun x y => Z.abs (x - y)) xs ys.
Proof.
  revert ys. induction xs as [|x xs IH]; intros [|y ys]; simpl;
    by rewrite ?IH.
Qed.

Lemma total_Zsum (l : list Z) : total l = Zsum l.
Proof.
  induction l as [|x l IH]; simpl; [done|].
  unfold Zsum. simpl. rewrite Zsum_fold, IH. lia.
Qed.

Lemma channel_means_zip_with (image0 image1 : Image) :
  channel_means image0 image1
  = zip_with channel_mean_abs_difference image0 image1.
Proof.
  revert image1. induction image0 as [|b0 bs0 IH]; intros [|b1 bs1];
    simpl; by rewrite ?IH.
Qed.

Lemma is_eight_bit_spec (image : Image) :
  is_eight_bit image = true <-> eight_bit image.
Proof.
  unfold is_eight_bit, eight_bit.
  rewrite forallb_forall, Forall_forall.
  split; intros H band Hband.
  - apply list_elem_of_In in Hband. specialize (H band Hband).
    rewrite forallb_forall in H. apply Forall_forall. intros row Hrow.
    apply list_elem_of_In in Hrow. specialize (H row Hrow).
    rewrite forallb_forall in H. apply Forall_forall. intros x Hx.
    apply list_elem_of_In in Hx. specialize (H x Hx). lia.
  - apply list_elem_of_In in Hband. specialize (H band Hband).
    rewrite Forall_forall in H. apply forallb_forall. intros row Hrow.
    apply list_elem_of_In in Hrow. specialize (H row Hrow).
    rewrite Forall_forall in H. apply forallb_forall. intros x Hx.
    apply list_elem_of_In in Hx. specialize (H x Hx). lia.
Qed.

(** On images of identical dimensions with no empty band, the exact
    means of the difference image are the per-channel mean absolute
    differences. *)
Lemma mean_difference (image0 image1 : Image) :
  same_dimensions image0 image1 ->
  Forall (fun band => pixels band ≠ []) image0 ->
  Exact.mean
    (zip_with (zip_with (zip_with (fun x y => Z.abs (x - y)))) image0 image1)
  = Ok (zip_with channel_mean_abs_difference image0 image1).
Proof.
  induction 1 as [|b0 b1 bs0 bs1 Hb _ IH]; intros Hne; simpl; [done|].
  inversion Hne as [|? ? Hb0 Hbs0]; subst.
  rewrite (IH Hbs0).
  unfold Exact.band_mean, Exact.band_count, Exact.band_sum, pixels in *.
  unfold channel_mean_abs_difference at 2.
  rewrite (flatten_concat b0), (flatten_concat b1),
    absolute_differences_zip_with, total_Zsum.
  rewrite (concat_zip_with _ _ _ Hb), length_zip_with.
  rewrite <- (concat_length_same _ _ Hb), Nat.min_id.
  destruct (Z.eqb_spec (Z.of_nat (length (concat b0))) 0) as [E|_].
  - destruct (concat b0); [done | simpl in E; lia].
  - reflexivity.
Qed.

(** On images of identical dimensions, the means that [ImageStat]
    computes in doubles from the difference image are the rounded
    per-channel means of the formula, failures included. *)
Lemma mean_rounded (image0 image1 : Image) :
  same_dimensions image0 image1 ->
  ImageStat.mean
    (zip_with (zip_with (zip_with (fun x y => Z.abs (x - y)))) image0 image1)
  = rounded_channel_means image0 image1.
Proof.
  induction 1 as [|b0 b1 bs0 bs1 Hb _ IH]; [done|].
  cbn [zip_with ImageStat.mean rounded_channel_means]. rewrite IH.
  assert (ImageStat.band_mean
            (zip_with (zip_with (fun x y => Z.abs (x - y))) b0 b1)
          = rounded_channel_mean b0 b1) as ->; [|done].
  unfold ImageStat.band_mean, ImageStat.band_count, ImageStat.band_sum,
    rounded_channel_mean, pixels.
  rewrite (flatten_concat b0), (flatten_concat b1),
    absolute_differences_zip_with, total_Zsum.
  rewrite (concat_zip_with _ _ _ Hb).
  destruct (zip_with _ (concat b0) (concat b1)) as [|d ds]; [done|].
  destruct (Z.eqb_spec (Z.of_nat (length (d :: ds))) 0) as [E|_];
    [simpl in E; lia|].
  reflexivity.
Qed.


(** ** The steps of the loop body *)

Lemma new_events_app (st st' : State) (l : list event) :
  trace st' = l ++ trace st -> new_events st st' = l.
Proof.
  intros E. unfold new_events. rewrite E, length_app.
  replace (length l + length (trace st) - length (trace st))%nat
    with (length l) by lia.
  by rewrite take_app_length.
Qed.

Lemma Qltb_lt (a b : Q) : Qltb a b = true <-> (a < b)%Q.
Proof.
  unfold Qltb. rewrite negb_true_iff. split.
  - intros H. apply Qnot_le_lt. intros Hle.
    apply Qle_bool_iff in Hle. congruence.
  - intros H. destruct (Qle_bool b a) eqn:E; [|done].
    apply Qle_bool_iff in E. exfalso. by apply (Qlt_not_le a b).
Qed.

Lemma Qltb_ge (a b : Q) : Qltb a b = false <-> (b <= a)%Q.
Proof.
  unfold Qltb. rewrite negb_false_iff. apply Qle_bool_iff.
Qed.

(** Unfolding the monad. *)
Ltac unfold_M :=
  unfold mbind, M_bind, mret, M_ret, modify, gets, lift, raise, sleep in *.

Lemma list_setitem_nonneg {A : Type} (l l' : list A) (i : Z) (v : A) :
  0 <= i -> list_setitem l i v = Ok l' ->
  (Z.to_nat i < length l)%nat ∧ l' = <[Z.to_nat i := v]> l.
Proof.
  intros Hi. unfold list_setitem.
  destruct (Z.ltb_spec i 0) as [?|_]; [lia|].
  destruct (Z.leb_spec 0 i) as [_|?]; [|lia].
  destruct (Z.ltb_spec i (Z.of_nat (length l))) as [Hlt|?]; simpl; [|done].
  intros [= <-]. split; [lia | done].
Qed.

Lemma list_setitem_in_range {A : Type} (l : list A) (i : Z) (v : A) :
  0 <= i < Z.of_nat (length l) ->
  list_setitem l i v = Ok (<[Z.to_nat i := v]> l).
Proof.
  intros Hi. unfold list_setitem.
  destruct (Z.ltb_spec i 0) as [?|_]; [lia|].
  destruct (Z.leb_spec 0 i) as [_|?]; [|lia].
  destruct (Z.ltb_spec i (Z.of_nat (length l))) as [Hlt|?]; simpl; [done|lia].
Qed.

Lemma list_setitem_length {A : Type} (l l' : list A) (i : Z) (v : A) :
  list_setitem l i v = Ok l' -> length l' = length l.
Proof.
  unfold list_setitem. case_match; [|done].
  intros [= <-]. apply length_insert.
Qed.

Lemma setitem_ok (i : Z) (v : Image) (st st' : State) :
  0 <= i -> setitem i v st = (Ok tt, st') ->
  (Z.to_nat i < length (processed_frames st))%nat
  ∧ st' = emit (EvSetitem i v)
            (set_processed_frames
               (<[Z.to_nat i := Some v]> (processed_frames st)) st).
Proof.
  intros Hi. unfold setitem.
  destruct (list_setitem _ i (Some v)) as [l|e] eqn:E; [|done].
  apply list_setitem_nonneg in E as [Hlt ->]; [|done].
  by intros [= <-].
Qed.

Lemma setitem_raise (i : Z) (v : Image) (st st' : State) (e : exn) :
  setitem i v st = (Raise e, st') -> st' = st.
Proof.
  unfold setitem. destruct (list_setitem _ i (Some v)); congruence.
Qed.

(** *** The processor cache *)

Lemma get_or_create_hit (algorithm : string) (p : Processor) (st : State) :
  processor_objects st !! algorithm = Some p ->
  get_or_create algorithm st = (Ok p, st).
Proof. intros H. unfold get_or_create. unfold_M. by rewrite H. Qed.

Lemma get_or_create_unknown (algorithm : string) (st : State) :
  processor_objects st !! algorithm = None ->
  ALGORITHM_CLASSES !! algorithm = None ->
  get_or_create algorithm st
  = (Raise (KeyError algorithm), emit (EvClassLookup algorithm) st).
Proof.
  intros H Hc. unfold get_or_create, lookup_class. unfold_M.
  rewrite H. simpl. by rewrite Hc.
Qed.

Lemma get_or_create_init_fails (algorithm : string) (cls : ProcessorClass)
    (e : exn) (st : State) :
  processor_objects st !! algorithm = None ->
  ALGORITHM_CLASSES !! algorithm = Some cls ->
  class_init cls 0 = Raise e ->
  get_or_create algorithm st
  = (Raise e, emit (EvConstruct cls 0) (emit (EvClassLookup algorithm) st)).
Proof.
  intros H Hc He. unfold get_or_create, lookup_class, construct. unfold_M.
  rewrite H. simpl. rewrite Hc. simpl. by rewrite He.
Qed.

Lemma get_or_create_new (algorithm : string) (cls : ProcessorClass)
    (st : State) :
  processor_objects st !! algorithm = None ->
  ALGORITHM_CLASSES !! algorithm = Some cls ->
  class_init cls 0 = Ok tt ->
  get_or_create algorithm st
  = (Ok (mkProcessor cls 0 (constructed st)),
     set_processor_objects
       (<[algorithm := mkProcessor cls 0 (constructed st)]>
          (processor_objects st))
       (set_constructed (S (constructed st))
          (emit (EvConstruct cls 0) (emit (EvClassLookup algorithm) st)))).
Proof.
  intros H Hc He. unfold get_or_create, lookup_class, construct. unfold_M.
  rewrite H. simpl. rewrite Hc. simpl. by rewrite He.
Qed.

Lemma quiet_refl (st : State) : quiet st st.
Proof.
  unfold quiet. repeat split; try done. by exists [].
Qed.

Lemma quiet_trans (st1 st2 st3 : State) :
  quiet st1 st2 -> quiet st2 st3 -> quiet st1 st3.
Proof.
  intros (R1 & P1 & Q1 & F1 & C1 & l1 & T1 & E1)
         (R2 & P2 & Q2 & F2 & C2 & l2 & T2 & E2).
  unfold quiet. repeat split; try congruence.
  - by transitivity (processor_objects st2).
  - exists (l2 ++ l1). split.
    + by rewrite T2, T1, app_assoc.
    + by apply Forall_app.
Qed.

Lemma quiet_emit (e : event) (st : State) :
  is_get e = false -> is_setitem e = false -> quiet st (emit e st).
Proof.
  intros Hg Hs. unfold quiet. repeat split; try done.
  exists [e]. split; [done|]. by repeat constructor.
Qed.

Lemma get_or_create_quiet (algorithm : string) (r : result Processor)
    (st st' : State) :
  get_or_create algorithm st = (r, st') -> quiet st st'.
Proof.
  destruct (processor_objects st !! algorithm) as [p|] eqn:Hc.
  { rewrite (get_or_create_hit _ _ _ Hc). intros [= <- <-]. apply quiet_refl. }
  destruct (ALGORITHM_CLASSES !! algorithm) as [cls|] eqn:Hk.
  2:{ rewrite (get_or_create_unknown _ _ Hc Hk). intros [= <- <-].
      by apply quiet_emit. }
  destruct (class_init cls 0) as [[]|e] eqn:Hi.
  - rewrite (get_or_create_new _ _ _ Hc Hk Hi). intros [= <- <-].
    unfold quiet; simpl. repeat split; try done.
    + by apply insert_subseteq.
    + exists [EvConstruct cls 0; EvClassLookup algorithm].
      split; [done|]. by repeat constructor.
  - rewrite (get_or_create_init_fails _ _ _ _ Hc Hk Hi). intros [= <- <-].
    eapply quiet_trans; apply quiet_emit; done.
Qed.

Lemma process_eq (p : Processor) (a b : Image) (st : State) :
  process p a b st = (process_output p a b, emit (EvProcess p a b) st).
Proof. unfold process. unfold_M. reflexivity. Qed.

Lemma interpolated_quiet (job : Job) (first : Image) (ratio : Q)
    (r : result Image) (st st' : State) :
  interpolated job first ratio st = (r, st') -> quiet st st'.
Proof.
  unfold interpolated.
  destruct (Qltb ratio (difference_threshold job)).
  - unfold mbind, M_bind.
    destruct (get_or_create (algorithm job) st) as [[p|e] st1] eqn:Hg.
    + rewrite process_eq. intros [= <- <-].
      eapply quiet_trans; [by eapply get_or_create_quiet|].
      by apply quiet_emit.
    + intros [= <- <-]. by eapply get_or_create_quiet.
  - intros [= <- <-]. apply quiet_refl.
Qed.

(** *** Writing the processed frames *)

Lemma setitem_nonneg (i : Z) (v : Image) (st : State) :
  0 <= i ->
  setitem i v st
  = if decide (i < Z.of_nat (length (processed_frames st)))
    then (Ok tt,
          emit (EvSetitem i v)
            (set_processed_frames
               (<[Z.to_nat i := Some v]> (processed_frames st)) st))
    else (Raise IndexError, st).
Proof.
  intros Hi. unfold setitem, list_setitem.
  destruct (Z.ltb_spec i 0) as [?|_]; [lia|].
  destruct (Z.leb_spec 0 i) as [_|?]; [|lia].
  destruct (Z.ltb_spec i (Z.of_nat (length (processed_frames st))));
    case_decide; simpl; (done || lia).
Qed.

(** Whatever happens to the writes of a job with a positive frame
    index: only processed frames and trace change, slot 0 is written
    only for frame index 1, and then with the first frame. *)
Ltac trace_eq := repeat (rewrite <- ?app_assoc; simpl); done.

Ltac write_events :=
  repeat (apply Forall_cons_2;
          [split_and!; [done | done | intros ? ?; simplify_eq; (done || lia)]|]);
  apply Forall_nil_2.

Lemma write_frames_any (job : Job) (first v : Image) (r : result unit)
    (st st' : State) :
  0 < frame_index job ->
  write_frames job first v st = (r, st') ->
  running st' = running st
  ∧ pause st' = pause st
  ∧ processing_queue st' = processing_queue st
  ∧ processor_objects st' = processor_objects st
  ∧ constructed st' = constructed st
  ∧ (frame_index job ≠ 1 ->
     processed_frames st' !! 0%nat = processed_frames st !! 0%nat)
  ∧ ∃ l, trace st' = l ++ trace st
         ∧ Forall (fun e => is_get e = false
                            ∧ is_processor_event e = false
                            ∧ ∀ x, e = EvSetitem 0 x ->
                                   frame_index job = 1 ∧ x = first) l.
Proof.
  intros Hk. unfold write_frames. unfold_M.
  destruct (Z.eqb_spec (frame_index job) 1) as [E|E].
  - rewrite E. change (1 * 2 - 1) with 1. change (1 * 2) with 2.
    rewrite setitem_nonneg by lia.
    case_decide.
    2:{ intros [= <- <-]. repeat split; try done. by exists []. }
    rewrite setitem_nonneg by lia. simpl.
    case_decide.
    2:{ intros [= <- <-]. simpl. repeat split; try done.
        eexists [_]. split; [done|]. write_events. }
    rewrite setitem_nonneg by lia. simpl.
    case_decide; intros [= <- <-]; simpl; repeat split; try done.
    + eexists [_; _; _]. split; [done|]. write_events.
    + eexists [_; _]. split; [done|]. write_events.
  - rewrite setitem_nonneg by lia.
    case_decide.
    2:{ intros [= <- <-]. repeat split; try done. by exists []. }
    rewrite setitem_nonneg by lia. simpl.
    case_decide; intros [= <- <-]; simpl; repeat split; try done.
    + intros _. rewrite !list_lookup_insert_ne by lia. done.
    + eexists [_; _]. split; [done|]. write_events.
    + intros _. rewrite !list_lookup_insert_ne by lia. done.
    + eexists [_]. split; [done|]. write_events.
Qed.

Lemma write_frames_ok (job : Job) (first v : Image) (st st' : State) :
  0 < frame_index job ->
  write_frames job first v st = (Ok tt, st') ->
  slot st' (2 * frame_index job - 1) v
  ∧ slot st' (2 * frame_index job) (image1 job)
  ∧ (frame_index job = 1 -> slot st' 0 first).
Proof.
  intros Hk. unfold write_frames, slot. unfold_M.
  replace (frame_index job * 2 - 1) with (2 * frame_index job - 1) by lia.
  replace (frame_index job * 2) with (2 * frame_index job) by lia.
  destruct (Z.eqb_spec (frame_index job) 1) as [E|E].
  - rewrite setitem_nonneg by lia.
    case_decide; [|done].
    rewrite setitem_nonneg by lia. simpl.
    case_decide; [|done].
    rewrite setitem_nonneg by lia. simpl.
    case_decide; [|done].
    intros [= <-]. simpl.
    rewrite !length_insert in *.
    split_and!; try lia; try done.
    + rewrite list_lookup_insert_ne by lia.
      apply list_lookup_insert_eq. rewrite length_insert. lia.
    + apply list_lookup_insert_eq. rewrite !length_insert. lia.
    + intros _. split; [lia|].
      rewrite !list_lookup_insert_ne by lia.
      apply list_lookup_insert_eq. lia.
  - rewrite setitem_nonneg by lia.
    case_decide; [|done].
    rewrite setitem_nonneg by lia. simpl.
    case_decide; [|done].
    intros [= <-]. simpl.
    rewrite !length_insert in *.
    split_and!; try lia; try done.
    + rewrite list_lookup_insert_ne by lia.
      apply list_lookup_insert_eq. lia.
    + apply list_lookup_insert_eq. rewrite !length_insert. lia.
Qed.

Lemma write_frames_in_range (job : Job) (first v : Image) (st : State) :
  0 < frame_index job ->
  2 * frame_index job < Z.of_nat (length (processed_frames st)) ->
  ∃ st', write_frames job first v st = (Ok tt, st').
Proof.
  intros Hk Hlen. unfold write_frames. unfold_M.
  destruct (Z.eqb_spec (frame_index job) 1) as [E|E].
  - rewrite setitem_nonneg by lia.
    case_decide; [|lia].
    rewrite setitem_nonneg by lia. simpl. rewrite length_insert.
    case_decide; [|lia].
    rewrite setitem_nonneg by lia. simpl. rewrite !length_insert.
    case_decide; [|lia]. by eexists.
  - rewrite setitem_nonneg by lia.
    case_decide; [|lia].
    rewrite setitem_nonneg by lia. simpl. rewrite !length_insert.
    case_decide; [|lia]. by eexists.
Qed.

(** *** The loop body, case by case *)

Lemma loop_body_paused (st : State) :
  pause st = true -> loop_body st = (Ok tt, emit EvSleep st).
Proof. intros H. unfold loop_body. unfold_M. by rewrite H. Qed.

Lemma loop_body_empty (st : State) :
  pause st = false -> processing_queue st = [] ->
  loop_body st = (Ok tt, emit EvSleep (emit (EvGet None) st)).
Proof.
  intros H Hq. unfold loop_body, queue_get. unfold_M. by rewrite H, Hq.
Qed.

Lemma loop_body_job (st : State) (job : Job) (rest : list Job) :
  pause st = false -> processing_queue st = job :: rest ->
  loop_body st
  = match image0 job with
    | None => (Ok tt, emit (EvGet (Some job)) (set_processing_queue rest st))
    | Some first =>
        interpolate job first
          (emit (EvGet (Some job)) (set_processing_queue rest st))
    end.
Proof.
  intros H Hq. unfold loop_body, queue_get. unfold_M. rewrite H, Hq.
  by destruct (image0 job).
Qed.

Lemma interpolate_eq (job : Job) (first : Image) (st : State) :
  interpolate job first st
  = match estimator first (image1 job) with
    | Raise e => (Raise e, emit (EvDifference first (image1 job)) st)
    | Ok ratio =>
        match interpolated job first ratio
                (emit (EvDifference first (image1 job)) st) with
        | (Ok v, st') => write_frames job first v st'
        | (Raise e, st') => (Raise e, st')
        end
    end.
Proof.
  unfold interpolate, estimate. unfold_M.
  by destruct (estimator first (image1 job)).
Qed.

Lemma iteration_ok (st st' : State) :
  iteration st = (Continue, st') <-> ∃ u, loop_body st = (Ok u, st').
Proof.
  unfold iteration. destruct (loop_body st) as [[u|e] st1].
  - split; [intros [= <-]; by eexists | intros [? [= _ <-]]; done].
  - split; [by destruct e | by intros [? ?]].
Qed.

Lemma iteration_break (st st1 : State) (e : exn) :
  loop_body st = (Raise e, st1) ->
  ∃ st', iteration st = (Break, st')
         ∧ (st' = st1 ∨ st' = emit (EvException e) st1).
Proof.
  intros H. unfold iteration. rewrite H.
  destruct e; eexists; (split; [done|]); auto.
Qed.

Lemma get_or_create_cached (algorithm : string) (p : Processor)
    (st st' : State) :
  get_or_create algorithm st = (Ok p, st') ->
  processor_objects st' !! algorithm = Some p.
Proof.
  destruct (processor_objects st !! algorithm) as [p'|] eqn:Hc.
  { rewrite (get_or_create_hit _ _ _ Hc). by intros [= <- <-]. }
  destruct (ALGORITHM_CLASSES !! algorithm) as [cls|] eqn:Hk.
  2:{ by rewrite (get_or_create_unknown _ _ Hc Hk). }
  destruct (class_init cls 0) as [[]|e] eqn:Hi.
  - rewrite (get_or_create_new _ _ _ Hc Hk Hi). intros [= <- <-]. simpl.
    apply lookup_insert_eq.
  - by rewrite (get_or_create_init_fails _ _ _ _ Hc Hk Hi).
Qed.

(** The test below the threshold: the frame is the output of the
    cached processor of the job's algorithm. *)
Lemma interpolated_below (job : Job) (first v : Image) (ratio : Q)
    (st st' : State) :
  Qltb ratio (difference_threshold job) = true ->
  interpolated job first ratio st = (Ok v, st') ->
  ∃ p, processor_objects st' !! algorithm job = Some p
       ∧ process_output p first (image1 job) = Ok v
       ∧ ∃ l, trace st' = EvProcess p first (image1 job) :: l ++ trace st.
Proof.
  intros Hlt. unfold interpolated. rewrite Hlt. unfold mbind, M_bind.
  destruct (get_or_create (algorithm job) st) as [[p|e] st1] eqn:Hg; [|done].
  rewrite process_eq. intros [= Hout <-]. exists p. simpl.
  split; [by eapply get_or_create_cached|].
  split; [done|].
  apply get_or_create_quiet in Hg as (_ & _ & _ & _ & _ & l & -> & _).
  by exists l.
Qed.

Lemma interpolated_above (job : Job) (first : Image) (ratio : Q)
    (st : State) :
  Qltb ratio (difference_threshold job) = false ->
  interpolated job first ratio st = (Ok first, st).
Proof. intros Hge. unfold interpolated. by rewrite Hge. Qed.

(** A job with a first frame that the loop body completes. *)
Lemma loop_body_job_ok (st st' : State) (job : Job) (rest : list Job)
    (first : Image) (u : unit) :
  pause st = false ->
  processing_queue st = job :: rest ->
  image0 job = Some first ->
  loop_body st = (Ok u, st') ->
  ∃ ratio v st1 st2,
    estimator first (image1 job) = Ok ratio
    ∧ st1 = emit (EvDifference first (image1 job))
              (emit (EvGet (Some job)) (set_processing_queue rest st))
    ∧ interpolated job first ratio st1 = (Ok v, st2)
    ∧ write_frames job first v st2 = (Ok tt, st').
Proof.
  intros Hp Hq Hf. rewrite (loop_body_job _ _ _ Hp Hq), Hf, interpolate_eq.
  destruct (estimator first (image1 job)) as [ratio|e]; [|done].
  destruct (interpolated job first ratio _) as [[v|e] st2] eqn:Hi; [|done].
  intros Hw. destruct u. by eexists ratio, v, _, st2.
Qed.

(** C1. A job with frame index [k] whose first frame is present and
    which the loop body processes without error leaves an image in
    slot [2k-1] and the job's second frame in slot [2k], on either side
    of the difference threshold. *)
Theorem both_slots_populated (st st' : State) (job : Job) (rest : list Job)
    (first : Image) :
  pause st = false ->
  processing_queue st = job :: rest ->
  image0 job = Some first ->
  0 < frame_index job ->
  iteration st = (Continue, st') ->
  (∃ im, slot st' (2 * frame_index job - 1) im)
  ∧ slot st' (2 * frame_index job) (image1 job).
Proof.
  intros Hp Hq Hf Hk [u Hb]%iteration_ok.
  destruct (loop_body_job_ok _ _ _ _ _ _ Hp Hq Hf Hb)
    as (ratio & v & st1 & st2 & _ & _ & _ & Hw).
  apply write_frames_ok in Hw as (H1 & H2 & _); [|done].
  split; [by exists v | done].
Qed.

(** C2. For a job with frame index [k] whose first frame is present
    and which is processed without error, slot [2k-1] holds the output
    of the processor object on the two frames when the difference ratio
    is strictly below the job's threshold, and the job's first frame,
    with no processor involved, when the ratio is at or above it. *)
Theorem interpolated_slot_by_threshold (st st' : State) (job : Job)
    (rest : list Job) (first : Image) :
  pause st = false ->
  processing_queue st = job :: rest ->
  image0 job = Some first ->
  0 < frame_index job ->
  iteration st = (Continue, st') ->
  ∃ ratio,
    estimator first (image1 job) = Ok ratio
    ∧ ((ratio < difference_threshold job)%Q ->
       ∃ p out,
         processor_objects st' !! algorithm job = Some p
         ∧ process_output p first (image1 job) = Ok out
         ∧ EvProcess p first (image1 job) ∈ new_events st st'
         ∧ slot st' (2 * frame_index job - 1) out)
    ∧ ((difference_threshold job <= ratio)%Q ->
       slot st' (2 * frame_index job - 1) first
       ∧ Forall (fun e => is_processor_event e = false) (new_events st st')).
Proof.
  intros Hp Hq Hf Hk [u Hb]%iteration_ok.
  destruct (loop_body_job_ok _ _ _ _ _ _ Hp Hq Hf Hb)
    as (ratio & v & st1 & st2 & Hr & Hst1 & Hi & Hw).
  exists ratio. split; [done|].
  destruct (write_frames_ok _ _ _ _ _ Hk Hw) as (Hslot & _ & _).
  destruct (write_frames_any _ _ _ _ _ _ Hk Hw)
    as (_ & _ & _ & Hc & _ & _ & lw & Hlw & Hev).
  split.
  - intros Hlt%Qltb_lt.
    destruct (interpolated_below _ _ _ _ _ _ Hlt Hi) as (p & Hp1 & Hp2 & l & Hl).
    exists p, v. split; [by rewrite Hc|].
    split; [done|]. split; [|done].
    rewrite (new_events_app st st'
               (lw ++ EvProcess p first (image1 job) :: l
                   ++ [EvDifference first (image1 job); EvGet (Some job)])).
    + rewrite elem_of_app, elem_of_cons. auto.
    + rewrite Hlw, Hl, Hst1. simpl. trace_eq.
  - intros Hge%Qltb_ge.
    rewrite (interpolated_above _ _ _ _ Hge) in Hi.
    injection Hi as <- <-. split; [done|].
    rewrite (new_events_app st st'
               (lw ++ [EvDifference first (image1 job); EvGet (Some job)])).
    + apply Forall_app. split.
      * eapply Forall_impl; [exact Hev|]. by intros e (_ & ? & _).
      * by repeat constructor.
    + rewrite Hlw, Hst1. simpl. trace_eq.
Qed.

(** *** The cache over the worker's lifetime *)

Lemma writes_only_refl (st : State) : writes_only st st.
Proof. unfold writes_only. repeat split; try done. by exists []. Qed.

Lemma writes_only_trans (st1 st2 st3 : State) :
  writes_only st1 st2 -> writes_only st2 st3 -> writes_only st1 st3.
Proof.
  intros (R1 & P1 & Q1 & C1 & N1 & l1 & T1 & E1)
         (R2 & P2 & Q2 & C2 & N2 & l2 & T2 & E2).
  unfold writes_only. repeat split; try congruence.
  exists (l2 ++ l1). split.
  - by rewrite T2, T1, app_assoc.
  - by apply Forall_app.
Qed.

Lemma setitem_writes_only (i : Z) (v : Image) (r : result unit)
    (st st' : State) :
  setitem i v st = (r, st') -> writes_only st st'.
Proof.
  unfold setitem. destruct (list_setitem _ i (Some v)); intros [= <- <-].
  - unfold writes_only; simpl. repeat split; try done.
    exists [EvSetitem i v]. split; [done|]. by repeat constructor.
  - apply writes_only_refl.
Qed.

Lemma write_frames_writes_only (job : Job) (first v : Image)
    (r : result unit) (st st' : State) :
  write_frames job first v st = (r, st') -> writes_only st st'.
Proof.
  unfold write_frames. unfold mbind, M_bind.
  assert (∃ r0 st0,
    (if frame_index job =? 1 then setitem 0 first else mret ()) st = (r0, st0)
    ∧ writes_only st st0) as (r0 & st0 & -> & H0).
  { destruct (frame_index job =? 1).
    - destruct (setitem 0 first st) as [r0 st0] eqn:E. exists r0, st0.
      split; [done|]. by eapply setitem_writes_only.
    - exists (Ok tt), st. split; [done|]. apply writes_only_refl. }
  destruct r0 as [[]|e]; [|by intros [= <- <-]].
  destruct (setitem (frame_index job * 2 - 1) v st0) as [[[]|e] st1] eqn:E1.
  - intros E2. eapply writes_only_trans; [exact H0|].
    eapply writes_only_trans; by eapply setitem_writes_only.
  - intros [= <- <-]. eapply writes_only_trans; [exact H0|].
    by eapply setitem_writes_only.
Qed.

Lemma loop_body_cache (st st' : State) (r : result unit) :
  loop_body st = (r, st') ->
  processor_objects st ⊆ processor_objects st'.
Proof.
  destruct (pause st) eqn:Hp.
  { rewrite (loop_body_paused _ Hp). by intros [= <- <-]. }
  destruct (processing_queue st) as [|job rest] eqn:Hq.
  { rewrite (loop_body_empty _ Hp Hq). by intros [= <- <-]. }
  rewrite (loop_body_job _ _ _ Hp Hq).
  destruct (image0 job) as [first|]; [|by intros [= <- <-]].
  rewrite interpolate_eq.
  destruct (estimator first (image1 job)) as [ratio|e];
    [|by intros [= <- <-]].
  destruct (interpolated job first ratio _) as [[v|e] st2] eqn:Hi.
  - intros (_ & _ & _ & Hc & _)%write_frames_writes_only.
    apply interpolated_quiet in Hi as (_ & _ & _ & _ & Hsub & _).
    by rewrite Hc.
  - intros [= <- <-].
    by apply interpolated_quiet in Hi as (_ & _ & _ & _ & Hsub & _).
Qed.

Lemma iteration_cache (st st' : State) (o : outcome) :
  iteration st = (o, st') ->
  processor_objects st ⊆ processor_objects st'.
Proof.
  unfold iteration.
  destruct (loop_body st) as [[u|e] st1] eqn:Hb;
    apply loop_body_cache in Hb.
  - by intros [= <- <-].
  - by destruct e; intros [= <- <-].
Qed.

Lemma env_steps_cache (actions : list env_action) (st : State) :
  processor_objects (foldl env_step st actions) = processor_objects st.
Proof.
  revert st. induction actions as [|a actions IH]; intros st; simpl; [done|].
  rewrite IH. by destruct a.
Qed.

Lemma run_loop_cache (schedule : list (list env_action)) (st st' : State)
    (status : run_status) :
  run_loop schedule st = (status, st') ->
  processor_objects st ⊆ processor_objects st'.
Proof.
  revert st. induction schedule as [|actions schedule IH]; intros st; simpl.
  - by destruct (running st); intros [= <- <-].
  - destruct (running st); [|by intros [= <- <-]].
    destruct (iteration st) as [[] st1] eqn:Hi; apply iteration_cache in Hi.
    + intros H%IH. rewrite env_steps_cache in H. by transitivity (processor_objects st1).
    + by intros [= <- <-].
Qed.

(** C4. The first request for an algorithm constructs a new processor
    object with device index 0 and caches it under the algorithm's
    name; for the rest of the worker's life the entry stays, and every
    later request returns that same object and changes nothing: no
    construction, the cache as it was. *)
Theorem processor_constructed_once (st : State) (algorithm : string)
    (cls : ProcessorClass) :
  processor_objects st !! algorithm = None ->
  ALGORITHM_CLASSES !! algorithm = Some cls ->
  class_init cls 0 = Ok tt ->
  ∃ p st1,
    get_or_create algorithm st = (Ok p, st1)
    ∧ p = mkProcessor cls 0 (constructed st)
    ∧ constructed st1 = S (constructed st)
    ∧ new_events st st1 = [EvConstruct cls 0; EvClassLookup algorithm]
    ∧ processor_objects st1 = <[algorithm := p]> (processor_objects st)
    ∧ get_or_create algorithm st1 = (Ok p, st1)
    ∧ ∀ schedule status st2,
        run_loop schedule st1 = (status, st2) ->
        processor_objects st2 !! algorithm = Some p
        ∧ get_or_create algorithm st2 = (Ok p, st2).
Proof.
  intros Hc Hk Hi. eexists _, _.
  split; [by apply get_or_create_new|].
  split; [done|]. split; [done|].
  split; [by apply new_events_app|].
  split; [done|].
  assert (∀ st2, processor_objects st2 !! algorithm
                 = Some (mkProcessor cls 0 (constructed st)) ->
                 get_or_create algorithm st2
                 = (Ok (mkProcessor cls 0 (constructed st)), st2)) as Hhit
    by (intros st2; apply get_or_create_hit).
  split.
  - apply Hhit. simpl. apply lookup_insert_eq.
  - intros schedule status st2 Hrun.
    apply run_loop_cache in Hrun. simpl in Hrun.
    assert (processor_objects st2 !! algorithm
            = Some (mkProcessor cls 0 (constructed st))) as H2.
    { eapply lookup_weaken; [|exact Hrun]. apply lookup_insert_eq. }
    split; [done | by apply Hhit].
Qed.

(** *** Slot 0 *)

(** One write: the list keeps its length; position 0 is touched only
    through the index 0 or, counting from the end, minus the length. *)
Lemma setitem_slot0 (i : Z) (v : Image) (r : result unit) (st st' : State) :
  setitem i v st = (r, st') ->
  length (processed_frames st') = length (processed_frames st)
  ∧ (i ≠ 0 -> i ≠ - Z.of_nat (length (processed_frames st)) ->
     processed_frames st' !! 0%nat = processed_frames st !! 0%nat)
  ∧ (trace st' = trace st ∨ trace st' = EvSetitem i v :: trace st).
Proof.
  unfold setitem.
  destruct (list_setitem _ i (Some v)) as [l|e] eqn:E; intros [= <- <-];
    simpl; [|by auto].
  unfold list_setitem in E.
  destruct (_ && _) eqn:Hin; [|done]. injection E as <-.
  apply andb_true_iff in Hin as [Hlo%Z.leb_le Hhi%Z.ltb_lt].
  rewrite length_insert. split; [done|]. split; [|by right].
  intros H0 Hn. apply list_lookup_insert_ne.
  destruct (Z.ltb_spec i 0); lia.
Qed.

Lemma write_frames_slot0 (job : Job) (first v : Image) (r : result unit)
    (st st' : State) :
  write_frames job first v st = (r, st') ->
  (frame_index job ≠ 1 ->
   frame_index job ≠ 0 ->
   2 * frame_index job ≠ - Z.of_nat (length (processed_frames st)) ->
   2 * frame_index job - 1 ≠ - Z.of_nat (length (processed_frames st)) ->
   processed_frames st' !! 0%nat = processed_frames st !! 0%nat)
  ∧ ∃ l, trace st' = l ++ trace st
         ∧ Forall (fun e => ∀ x, e = EvSetitem 0 x ->
                      (frame_index job = 1 ∧ x = first)
                      ∨ (frame_index job = 0 ∧ x = image1 job)) l.
Proof.
  unfold write_frames. unfold_M.
  assert ((∃ st0 l0,
             (if frame_index job =? 1 then setitem 0 first
              else λ st, (Ok (), st)) st = (Ok tt, st0)
             ∧ length (processed_frames st0) = length (processed_frames st)
             ∧ (frame_index job ≠ 1 ->
                processed_frames st0 !! 0%nat = processed_frames st !! 0%nat)
             ∧ trace st0 = l0 ++ trace st
             ∧ Forall (fun e => ∀ x, e = EvSetitem 0 x ->
                          (frame_index job = 1 ∧ x = first)
                          ∨ (frame_index job = 0 ∧ x = image1 job)) l0)
          ∨ (∃ e, (if frame_index job =? 1 then setitem 0 first
                   else λ st, (Ok (), st)) st = (Raise e, st))) as Hfirst.
  { destruct (Z.eqb_spec (frame_index job) 1) as [E|E].
    - destruct (setitem 0 first st) as [[[]|e] st0] eqn:H0.
      + destruct (setitem_slot0 _ _ _ _ _ H0) as (Hlen & _ & [Ht|Ht]).
        * left. exists st0, []. by split_and!.
        * left. exists st0, [EvSetitem 0 first]. split_and!; try done.
          apply Forall_cons_2; [|apply Forall_nil_2].
          intros x [= <-]. by left.
      + right. exists e. by rewrite (setitem_raise _ _ _ _ _ H0).
    - left. exists st, []. by split_and!. }
  destruct Hfirst as [(st0 & l0 & -> & Hlen0 & Hs0 & Ht0 & Hev0)|[e ->]].
  2:{ intros [= <- <-]. split; [done|]. by exists []. }
  destruct (setitem (frame_index job * 2 - 1) v st0) as [[[]|e] st1] eqn:H1.
  2:{ intros [= <- <-]. rewrite (setitem_raise _ _ _ _ _ H1).
      split; [auto|]. by exists l0. }
  destruct (setitem_slot0 _ _ _ _ _ H1) as (Hlen1 & Hs1 & Ht1).
  destruct (setitem (frame_index job * 2) (image1 job) st1)
    as [r2 st2] eqn:H2.
  destruct (setitem_slot0 _ _ _ _ _ H2) as (Hlen2 & Hs2 & Ht2).
  intros [= <- <-]. split.
  - intros Hk1 Hk0 Hw0 Hw1.
    rewrite Hs2, Hs1, Hs0 by (rewrite ?Hlen1, ?Hlen0; lia). done.
  - assert (∃ l1, trace st1 = l1 ++ trace st0
                  ∧ Forall (fun e => ∀ x, e = EvSetitem 0 x ->
                               (frame_index job = 1 ∧ x = first)
                               ∨ (frame_index job = 0 ∧ x = image1 job)) l1)
      as (l1 & Hl1 & Hev1).
    { destruct Ht1 as [Ht|Ht]; [by exists []|].
      exists [EvSetitem (frame_index job * 2 - 1) v]. split; [done|].
      apply Forall_cons_2; [|apply Forall_nil_2]. intros x [= ? _]. lia. }
    assert (∃ l2, trace st2 = l2 ++ trace st1
                  ∧ Forall (fun e => ∀ x, e = EvSetitem 0 x ->
                               (frame_index job = 1 ∧ x = first)
                               ∨ (frame_index job = 0 ∧ x = image1 job)) l2)
      as (l2 & Hl2 & Hev2).
    { destruct Ht2 as [Ht|Ht]; [by exists []|].
      exists [EvSetitem (frame_index job * 2) (image1 job)]. split; [done|].
      apply Forall_cons_2; [|apply Forall_nil_2].
      intros x [= ? <-]. right. split; [lia | done]. }
    exists (l2 ++ l1 ++ l0). split.
    + rewrite Hl2, Hl1, Ht0. trace_eq.
    + rewrite !Forall_app. done.
Qed.

Lemma loop_body_job_slot0 (st st' : State) (job : Job) (rest : list Job)
    (first : Image) (r : result unit) :
  pause st = false ->
  processing_queue st = job :: rest ->
  image0 job = Some first ->
  loop_body st = (r, st') ->
  (frame_index job ≠ 1 ->
   frame_index job ≠ 0 ->
   2 * frame_index job ≠ - Z.of_nat (length (processed_frames st)) ->
   2 * frame_index job - 1 ≠ - Z.of_nat (length (processed_frames st)) ->
   processed_frames st' !! 0%nat = processed_frames st !! 0%nat)
  ∧ ∃ l, trace st' = l ++ trace st
         ∧ Forall (fun e => ∀ x, e = EvSetitem 0 x ->
                      (frame_index job = 1 ∧ x = first)
                      ∨ (frame_index job = 0 ∧ x = image1 job)) l.
Proof.
  intros Hp Hq Hf. rewrite (loop_body_job _ _ _ Hp Hq), Hf, interpolate_eq.
  destruct (estimator first (image1 job)) as [ratio|e].
  2:{ intros [= <- <-]. split; [done|]. eexists [_; _].
      split; [done|]. by repeat constructor. }
  destruct (interpolated job first ratio _) as [[v|e] st2] eqn:Hi;
    apply interpolated_quiet in Hi as (_ & _ & _ & Hfr & _ & lg & Hlg & Hg);
    simpl in Hfr, Hlg.
  - intros Hw.
    destruct (write_frames_slot0 _ _ _ _ _ _ Hw) as (H0 & lw & Hlw & Hev).
    rewrite Hfr in H0. split; [intros; rewrite H0; by rewrite ?Hfr|].
    exists (lw ++ lg ++ [EvDifference first (image1 job); EvGet (Some job)]).
    split; [rewrite Hlw, Hlg; trace_eq|].
    rewrite !Forall_app. split_and!.
    + done.
    + eapply Forall_impl; [exact Hg|]. intros ev [_ He] x ->. done.
    + by repeat constructor.
  - intros [= <- <-]. split; [by rewrite Hfr|].
    exists (lg ++ [EvDifference first (image1 job); EvGet (Some job)]).
    split; [rewrite Hlg; trace_eq|].
    rewrite !Forall_app. split.
    + eapply Forall_impl; [exact Hg|]. intros ev [_ He] x ->. done.
    + by repeat constructor.
Qed.


(** *** A job without a first frame *)

(** C6. A job whose first frame is absent is taken from the queue and
    dropped: the iteration ends normally with no slot written, no
    difference computed, no processor looked up, built or invoked, and
    the cache and the processed frames as they were. *)
Theorem first_frame_absent_discards (st : State) (job : Job)
    (rest : list Job) :
  pause st = false ->
  processing_queue st = job :: rest ->
  image0 job = None ->
  ∃ st',
    iteration st = (Continue, st')
    ∧ new_events st st' = [EvGet (Some job)]
    ∧ processing_queue st' = rest
    ∧ processed_frames st' = processed_frames st
    ∧ processor_objects st' = processor_objects st
    ∧ constructed st' = constructed st
    ∧ running st' = running st.
Proof.
  intros Hp Hq Hf. eexists.
  split.
  { unfold iteration. by rewrite (loop_body_job _ _ _ Hp Hq), Hf. }
  split; [by apply new_events_app|]. done.
Qed.

(** *** Pause *)

Lemma iteration_paused (st : State) :
  pause st = true -> iteration st = (Continue, emit EvSleep st).
Proof. intros Hp. unfold iteration. by rewrite (loop_body_paused _ Hp). Qed.

Lemma env_steps_paused (actions : list env_action) (st : State) :
  Forall (fun a => a ≠ SetPause false) actions ->
  pause st = true ->
  pause (foldl env_step st actions) = true.
Proof.
  intros H. revert st.
  induction H as [|a actions Ha _ IH]; intros st Hp; simpl; [done|].
  apply IH. destruct a as [|[]|]; done.
Qed.

Lemma env_steps_frame (actions : list env_action) (st : State) :
  trace (foldl env_step st actions) = trace st
  ∧ processed_frames (foldl env_step st actions) = processed_frames st
  ∧ constructed (foldl env_step st actions) = constructed st
  ∧ processing_queue st `prefix_of`
      processing_queue (foldl env_step st actions).
Proof.
  revert st. induction actions as [|a actions IH]; intros st; simpl; [done|].
  destruct (IH (env_step st a)) as (-> & -> & -> & Hq).
  split_and!; try by destruct a.
  etrans; [|exact Hq]. destruct a; simpl; try done.
  by apply prefix_app_r.
Qed.

Lemma run_loop_paused (schedule : list (list env_action)) (st st' : State)
    (status : run_status) :
  pause st = true ->
  Forall (Forall (fun a => a ≠ SetPause false)) schedule ->
  run_loop schedule st = (status, st') ->
  processing_queue st `prefix_of` processing_queue st'
  ∧ processed_frames st' = processed_frames st
  ∧ ∃ l, trace st' = l ++ trace st ∧ Forall (fun e => e = EvSleep) l.
Proof.
  intros Hp Hs. revert st Hp.
  induction Hs as [|actions schedule Ha _ IH]; intros st Hp; simpl.
  - destruct (running st); intros [= <- <-]; (split_and!; [done..|by exists []]).
  - destruct (running st);
      [|intros [= <- <-]; (split_and!; [done..|by exists []])].
    rewrite (iteration_paused _ Hp). intros Hrun.
    destruct (env_steps_frame actions (emit EvSleep st)) as (Ht & Hf & _ & Hq).
    apply IH in Hrun as (Hq' & Hf' & l & Hl & Hev).
    2:{ by apply env_steps_paused. }
    split_and!.
    + etrans; [exact Hq | exact Hq'].
    + by rewrite Hf', Hf.
    + exists (l ++ [EvSleep]). split.
      * rewrite Hl, Ht. simpl. trace_eq.
      * apply Forall_app. split; [done | by repeat constructor].
Qed.

(** C7. An iteration that begins with the pause flag set sleeps and
    does nothing else: no dequeue, no write.  As long as the flag is
    not cleared the worker only sleeps; the jobs that were in the queue
    stay at its head in their order, and a dequeue happens only in an
    iteration that found the flag clear. *)
Theorem paused_worker_only_sleeps (st : State) :
  pause st = true ->
  iteration st = (Continue, emit EvSleep st)
  ∧ (∀ schedule status st',
       Forall (Forall (fun a => a ≠ SetPause false)) schedule ->
       run_loop schedule st = (status, st') ->
       processing_queue st `prefix_of` processing_queue st'
       ∧ processed_frames st' = processed_frames st
       ∧ Forall (fun e => e = EvSleep) (new_events st st'))
  ∧ (∀ st0 o st1 job,
       iteration st0 = (o, st1) ->
       EvGet job ∈ new_events st0 st1 ->
       pause st0 = false).
Proof.
  intros Hp. split; [by apply iteration_paused|]. split.
  - intros schedule status st' Hs Hrun.
    destruct (run_loop_paused _ _ _ _ Hp Hs Hrun) as (Hq & Hf & l & Hl & Hev).
    by rewrite (new_events_app _ _ _ Hl).
  - intros st0 o st1 job Hit Hin.
    destruct (pause st0) eqn:Hp0; [|done].
    rewrite (iteration_paused _ Hp0) in Hit. injection Hit as <- <-.
    rewrite (new_events_app _ _ [EvSleep]) in Hin by done.
    by apply list_elem_of_singleton in Hin.
Qed.

(** *** Failure, termination and the scene-change branch *)

Lemma interpolated_construction_fails (job : Job) (first : Image)
    (ratio : Q) (st : State) :
  Qltb ratio (difference_threshold job) = true ->
  processor_objects st !! algorithm job = None ->
  (ALGORITHM_CLASSES !! algorithm job = None
   ∨ ∃ cls e, ALGORITHM_CLASSES !! algorithm job = Some cls
              ∧ class_init cls 0 = Raise e) ->
  ∃ e st', interpolated job first ratio st = (Raise e, st') ∧ quiet st st'.
Proof.
  intros Hlt Hc Hfail.
  assert (∃ e st', get_or_create (algorithm job) st = (Raise e, st'))
    as (e & st' & Hg).
  { destruct Hfail as [Hk|(cls & e & Hk & Hi)].
    - rewrite (get_or_create_unknown _ _ Hc Hk). by eexists _, _.
    - rewrite (get_or_create_init_fails _ _ _ _ Hc Hk Hi). by eexists _, _. }
  exists e, st'. split.
  - unfold interpolated. rewrite Hlt. unfold mbind, M_bind. by rewrite Hg.
  - by eapply get_or_create_quiet.
Qed.

(** C8. When the construction of the processor fails for a job's
    algorithm (the name is not in [ALGORITHM_CLASSES], or the
    constructor raises), the iteration leaves the loop at once: none of
    the job's slots is written, the loop is over without another
    dequeue, and the jobs behind the failing one are still in the
    queue. *)
Theorem construction_failure_terminates (st : State) (job : Job)
    (rest : list Job) (first : Image) (ratio : Q) :
  running st = true ->
  pause st = false ->
  processing_queue st = job :: rest ->
  image0 job = Some first ->
  estimator first (image1 job) = Ok ratio ->
  (ratio < difference_threshold job)%Q ->
  processor_objects st !! algorithm job = None ->
  (ALGORITHM_CLASSES !! algorithm job = None
   ∨ ∃ cls e, ALGORITHM_CLASSES !! algorithm job = Some cls
              ∧ class_init cls 0 = Raise e) ->
  ∃ st',
    iteration st = (Break, st')
    ∧ processed_frames st' = processed_frames st
    ∧ processing_queue st' = rest
    ∧ processor_objects st' = processor_objects st
    ∧ Forall (fun e => is_setitem e = false
                       ∧ (is_get e = true -> e = EvGet (Some job)))
             (new_events st st')
    ∧ ∀ actions schedule,
        run_loop (actions :: schedule) st = (Exited, st').
Proof.
  intros Hrun Hp Hq Hf Hr Hlt%Qltb_lt Hc Hfail.
  pose (st1 := emit (EvDifference first (image1 job))
                 (emit (EvGet (Some job)) (set_processing_queue rest st))).
  destruct (interpolated_construction_fails job first ratio st1 Hlt Hc Hfail)
    as (e & st2 & Hi & (_ & _ & Hq2 & Hf2 & Hsub & l & Hl & Hev)).
  assert (processor_objects st2 = processor_objects st) as Hc2.
  { unfold interpolated in Hi. rewrite Hlt in Hi.
    unfold mbind, M_bind in Hi.
    destruct Hfail as [Hk|(cls & e0 & Hk & Hi0)].
    - rewrite (get_or_create_unknown (algorithm job) st1 Hc Hk) in Hi.
      by injection Hi as <- <-.
    - rewrite (get_or_create_init_fails (algorithm job) cls e0 st1 Hc Hk Hi0)
        in Hi.
      by injection Hi as <- <-. }
  assert (loop_body st = (Raise e, st2)) as Hb.
  { rewrite (loop_body_job _ _ _ Hp Hq), Hf, interpolate_eq, Hr.
    fold st1. by rewrite Hi. }
  destruct (iteration_break _ _ _ Hb) as (st' & Hit & Hst').
  exists st'. split; [done|].
  assert (∃ l', trace st' = l' ++ trace st2
                ∧ Forall (fun e => is_setitem e = false
                                   ∧ is_get e = false) l'
                ∧ processed_frames st' = processed_frames st2
                ∧ processing_queue st' = processing_queue st2
                ∧ processor_objects st' = processor_objects st2)
    as (l' & Hl' & Hev' & -> & -> & ->).
  { destruct Hst' as [-> | ->].
    - by exists [].
    - exists [EvException e]. split_and!; try done. by repeat constructor. }
  split; [done|]. split; [done|]. split; [done|]. split.
  - rewrite (new_events_app st st'
               (l' ++ l ++ [EvDifference first (image1 job);
                            EvGet (Some job)])).
    2:{ rewrite Hl', Hl. unfold st1. simpl. trace_eq. }
    rewrite !Forall_app. split_and!.
    + eapply Forall_impl; [exact Hev'|]. intros ev [? ?]. split; [done|congruence].
    + eapply Forall_impl; [exact Hev|]. intros ev [? ?]. split; [done|congruence].
    + by repeat constructor.
  - intros actions schedule. simpl. by rewrite Hrun, Hit.
Qed.

Lemma env_steps_stopped (actions : list env_action) (st : State) :
  running st = false -> running (foldl env_step st actions) = false.
Proof.
  revert st. induction actions as [|a actions IH]; intros st Hr; simpl; [done|].
  apply IH. by destruct a.
Qed.

Lemma env_steps_sigterm (actions : list env_action) (st : State) :
  Sigterm ∈ actions -> running (foldl env_step st actions) = false.
Proof.
  revert st. induction actions as [|a actions IH]; intros st Hin; simpl.
  - by apply elem_of_nil in Hin.
  - apply elem_of_cons in Hin as [<-|Hin].
    + by apply env_steps_stopped.
    + by apply IH.
Qed.

(** C9. Once SIGTERM has set [running] to false, the next test at the
    top of the loop ends it: the state the loop returns is the state it
    found, so nothing more is taken from the queue or written to the
    processed frames. *)
Theorem stop_observed_at_loop_top (schedule : list (list env_action))
    (actions : list env_action) (st st1 : State) :
  running st = true ->
  iteration st = (Continue, st1) ->
  Sigterm ∈ actions ->
  running (foldl env_step st1 actions) = false
  ∧ run_loop (actions :: schedule) st = (Exited, foldl env_step st1 actions)
  ∧ trace (foldl env_step st1 actions) = trace st1
  ∧ processed_frames (foldl env_step st1 actions) = processed_frames st1
  ∧ processing_queue st1 `prefix_of`
      processing_queue (foldl env_step st1 actions)
  ∧ ∀ st0 schedule0,
      run_loop schedule0 (_stop st0) = (Exited, _stop st0).
Proof.
  intros Hr Hit Hin.
  pose proof (env_steps_sigterm actions st1 Hin) as Hstop.
  destruct (env_steps_frame actions st1) as (Ht & Hf & _ & Hq).
  split_and!; try done.
  - simpl. rewrite Hr, Hit.
    destruct schedule; simpl; by rewrite Hstop.
  - intros st0 schedule0. by destruct schedule0.
Qed.

(** C10. A job whose difference ratio is at or above its threshold
    never reaches the processor: [ALGORITHM_CLASSES] is not consulted,
    no processor object is constructed or invoked, and the cache stays
    as it was, whatever the job's algorithm name.  With its slots in
    range the job is processed to the end and the loop goes on. *)
Theorem scene_change_skips_processor (st : State) (job : Job)
    (rest : list Job) (first : Image) (ratio : Q) :
  pause st = false ->
  processing_queue st = job :: rest ->
  image0 job = Some first ->
  estimator first (image1 job) = Ok ratio ->
  (difference_threshold job <= ratio)%Q ->
  ∃ o st',
    iteration st = (o, st')
    ∧ processor_objects st' = processor_objects st
    ∧ constructed st' = constructed st
    ∧ Forall (fun e => is_processor_event e = false) (new_events st st')
    ∧ (0 < frame_index job ->
       2 * frame_index job < Z.of_nat (length (processed_frames st)) ->
       o = Continue
       ∧ slot st' (2 * frame_index job - 1) first
       ∧ slot st' (2 * frame_index job) (image1 job)).
Proof.
  intros Hp Hq Hf Hr Hge%Qltb_ge.
  pose (st1 := emit (EvDifference first (image1 job))
                 (emit (EvGet (Some job)) (set_processing_queue rest st))).
  assert (loop_body st = write_frames job first first st1) as Hb.
  { rewrite (loop_body_job _ _ _ Hp Hq), Hf, interpolate_eq, Hr.
    fold st1. by rewrite (interpolated_above _ _ _ _ Hge). }
  destruct (write_frames job first first st1) as [r st2] eqn:Hw.
  pose proof (write_frames_writes_only _ _ _ _ _ _ Hw)
    as (_ & _ & _ & Hc & Hn & lw & Hlw & Hev).
  assert (∃ o st', iteration st = (o, st')
                   ∧ (r = Ok tt -> o = Continue ∧ st' = st2)
                   ∧ processor_objects st' = processor_objects st2
                   ∧ constructed st' = constructed st2
                   ∧ ∃ l', trace st' = l' ++ trace st2
                           ∧ Forall (fun e => is_processor_event e = false) l')
    as (o & st' & Hit & Hok & Hc' & Hn' & l' & Hl' & Hev').
  { unfold iteration. rewrite Hb. destruct r as [[]|e].
    - eexists _, _. split_and!; try done. by exists [].
    - destruct e; eexists _, _; (split_and!; try done);
        solve [by exists [] | eexists [_]; split; [done|]; by repeat constructor]. }
  exists o, st'. split; [done|].
  split; [by rewrite Hc', Hc|]. split; [by rewrite Hn', Hn|]. split.
  - rewrite (new_events_app st st'
               (l' ++ lw ++ [EvDifference first (image1 job);
                             EvGet (Some job)])).
    2:{ rewrite Hl', Hlw. unfold st1. simpl. trace_eq. }
    rewrite !Forall_app. split_and!; [done| |by repeat constructor].
    eapply Forall_impl; [exact Hev|]. by intros [] ?.
  - intros Hk Hlen.
    destruct (write_frames_in_range job first first st1 Hk Hlen) as [st3 Hw3].
    rewrite Hw in Hw3. injection Hw3 as -> ->.
    destruct (Hok eq_refl) as [-> ->].
    destruct (write_frames_ok _ _ _ _ _ Hk Hw) as (H1 & H2 & _). done.
Qed.

(** ** More on the difference estimator *)

Lemma zip_with_sym {A B : Type} (f : A -> A -> B) (l k : list A) :
  (∀ x y, f x y = f y x) -> zip_with f l k = zip_with f k l.
Proof.
  intros Hf. revert k.
  induction l as [|x l IH]; intros [|y k]; simpl; try done.
  by rewrite Hf, IH.
Qed.

Lemma Forall_zip_with {A B C : Type} (f : A -> B -> C) (P : A -> Prop)
    (Q : B -> Prop) (R : C -> Prop) (l : list A) (k : list B) :
  (∀ x y, P x -> Q y -> R (f x y)) ->
  Forall P l -> Forall Q k -> Forall R (zip_with f l k).
Proof.
  intros Hf Hl. revert k.
  induction Hl as [|x l Hx _ IH]; intros k Hk; simpl; [constructor|].
  destruct Hk as [|y k Hy Hk]; constructor; auto.
Qed.

Lemma Forall_True {A : Type} (l : list A) : Forall (fun _ => True) l.
Proof. by apply Forall_forall. Qed.

Lemma sum_fold (l : list Q) (a : Q) : (fold_left Qplus l a == a + sum l)%Q.
Proof.
  unfold sum. revert a. induction l as [|x l IH]; intros a; cbn [fold_left].
  - ring.
  - rewrite (IH (a + x)%Q), (IH (0 + x)%Q). ring.
Qed.

Lemma sum_cons (x : Q) (l : list Q) : (sum (x :: l) == x + sum l)%Q.
Proof. unfold sum at 1. cbn [fold_left]. rewrite sum_fold. ring. Qed.

Lemma Qtotal_sum (l : list Q) : (Qtotal l == sum l)%Q.
Proof.
  induction l as [|x l IH]; [reflexivity|].
  cbn [Qtotal]. rewrite sum_cons, IH. reflexivity.
Qed.

(** In exact arithmetic the estimator is the formula of the
    specification. *)
Lemma exact_ratio_is_formula (image0 image1 : Image) :
  same_dimensions image0 image1 ->
  nonempty image0 ->
  ∃ ratio, Exact.difference_ratio image0 image1 = Ok ratio
           ∧ (ratio == spec_difference_ratio image0 image1)%Q.
Proof.
  intros Hdim [Hne Hpix].
  assert (length image0 = length image1) as Hlen
    by apply (Forall2_length _ _ _ Hdim).
  unfold Exact.difference_ratio, Exact.difference.
  rewrite <- Hlen, Nat.eqb_refl. simpl.
  rewrite (mean_difference _ _ Hdim Hpix). simpl.
  rewrite length_zip_with, <- Hlen, Nat.min_id.
  destruct (Nat.eqb_spec (length image0) 0) as [E|E].
  { destruct image0; [done | discriminate]. }
  eexists; split; [reflexivity|].
  unfold spec_difference_ratio.
  assert (length (channel_means image0 image1) = length image0) as ->.
  { rewrite channel_means_zip_with, length_zip_with.
    unfold Image, Band in *. lia. }
  rewrite Qtotal_sum, inject_Z_mult.
  replace (channel_means image0 image1)
    with (zip_with channel_mean_abs_difference image0 image1)
    by (symmetry; apply channel_means_zip_with).
  assert (~ (inject_Z (Z.of_nat (length image0)) == 0)%Q) as Hn.
  { intros H. apply E. unfold Qeq in H. simpl in H. lia. }
  change (inject_Z 255) with 255%Q.
  field. exact Hn.
Qed.

Lemma sum_nonneg (l : list Q) :
  Forall (fun m => (0 <= m)%Q) l -> (0 <= sum l)%Q.
Proof.
  induction 1 as [|x l Hx _ IH]; [done|]. rewrite sum_cons. lra.
Qed.

Lemma sum_le (hi : Q) (l : list Q) :
  Forall (fun m => (m <= hi)%Q) l ->
  (sum l <= hi * inject_Z (Z.of_nat (length l)))%Q.
Proof.
  induction 1 as [|x l Hx _ IH].
  - unfold sum. cbn [fold_left length Z.of_nat].
    change (inject_Z (Z.of_nat 0)) with 0%Q. lra.
  - rewrite sum_cons. cbn [length]. rewrite Nat2Z.inj_succ.
    unfold Z.succ. rewrite inject_Z_plus. change (inject_Z 1) with 1%Q. lra.
Qed.

Lemma Zsum_cons (x : Z) (l : list Z) : Zsum (x :: l) = x + Zsum l.
Proof. unfold Zsum at 1. simpl. rewrite Zsum_fold. lia. Qed.

Lemma Zsum_nonneg (l : list Z) : Forall (fun x => 0 <= x) l -> 0 <= Zsum l.
Proof. induction 1 as [|x l Hx _ IH]; [done|]. rewrite Zsum_cons. lia. Qed.

Lemma Zsum_le (hi : Z) (l : list Z) :
  Forall (fun x => x <= hi) l -> Zsum l <= hi * Z.of_nat (length l).
Proof.
  induction 1 as [|x l Hx _ IH]; [unfold Zsum; simpl; lia|].
  rewrite Zsum_cons. simpl length. lia.
Qed.

Lemma Forall_concat {A : Type} (P : A -> Prop) (ls : list (list A)) :
  Forall (Forall P) ls -> Forall P (concat ls).
Proof.
  induction 1 as [|l ls Hl _ IH]; simpl; [constructor|]. by apply Forall_app.
Qed.

(** A mean that [ImageStat] returns lies between the bounds of the
    band's pixels. *)
Lemma band_mean_bounds (lo hi : Z) (band : Band) (m : Q) :
  Forall (Forall (fun x => lo <= x <= hi)) band ->
  Exact.band_mean band = Ok m ->
  (inject_Z lo <= m <= inject_Z hi)%Q.
Proof.
  intros Hpix. unfold Exact.band_mean, Exact.band_count,
    Exact.band_sum, pixels.
  apply Forall_concat in Hpix.
  destruct (Z.eqb_spec (Z.of_nat (length (concat band))) 0) as [|Hn]; [done|].
  intros [= <-].
  assert (0 < inject_Z (Z.of_nat (length (concat band))))%Q as Hpos.
  { change 0%Q with (inject_Z 0). rewrite <- Zlt_Qlt. lia. }
  assert (lo * Z.of_nat (length (concat band)) <= Zsum (concat band)) as Hlo.
  { clear Hn Hpos. induction Hpix as [|x l Hx _ IH]; [unfold Zsum; simpl; lia|].
    rewrite Zsum_cons. simpl length. lia. }
  assert (Zsum (concat band) <= hi * Z.of_nat (length (concat band))) as Hhi.
  { apply Zsum_le. eapply Forall_impl; [exact Hpix|]. simpl. lia. }
  split.
  - apply Qle_shift_div_l; [done|]. rewrite <- inject_Z_mult.
    by rewrite <- Zle_Qle.
  - apply Qle_shift_div_r; [done|]. rewrite <- inject_Z_mult.
    by rewrite <- Zle_Qle.
Qed.

Lemma mean_bounds (lo hi : Z) (image : Image) (ms : list Q) :
  Forall (Forall (Forall (fun x => lo <= x <= hi))) image ->
  Exact.mean image = Ok ms ->
  length ms = length image
  ∧ Forall (fun m => (inject_Z lo <= m <= inject_Z hi)%Q) ms.
Proof.
  intros Hpix. revert ms.
  induction Hpix as [|band image Hb _ IH]; intros ms; simpl.
  - by intros [= <-].
  - destruct (Exact.band_mean band) as [m|e] eqn:Hm; [|done]. simpl.
    destruct (Exact.mean image) as [ms'|e]; [|done]. simpl.
    intros [= <-]. destruct (IH ms' eq_refl) as [Hlen Hms].
    split; [simpl; by rewrite Hlen|].
    constructor; [by eapply band_mean_bounds | done].
Qed.

(** What [Exact.difference_ratio] returns, when it returns. *)
Lemma difference_ratio_inv (a b : Image) (r : Q) :
  Exact.difference_ratio a b = Ok r ->
  ∃ ms, length a = length b
        ∧ Exact.mean
            (zip_with (zip_with (zip_with (fun x y => Z.abs (x - y)))) a b)
          = Ok ms
        ∧ ms ≠ []
        ∧ r = (sum ms / inject_Z (Z.of_nat (length ms) * 255) * 100)%Q.
Proof.
  unfold Exact.difference_ratio, Exact.difference.
  destruct (Nat.eqb_spec (length a) (length b)) as [Hlen|]; [|done]. simpl.
  destruct (Exact.mean _) as [ms|e]; [|done]. simpl.
  destruct ms as [|m ms]; [done|]. simpl.
  intros [= <-]. exists (m :: ms). done.
Qed.

Lemma difference_pixels_nonneg (a b : Image) :
  Forall (Forall (Forall (fun x => 0 <= x)))
    (zip_with (zip_with (zip_with (fun x y => Z.abs (x - y)))) a b).
Proof.
  apply (Forall_zip_with _ (fun _ => True) (fun _ => True));
    [|apply Forall_True..].
  intros band0 band1 _ _.
  apply (Forall_zip_with _ (fun _ => True) (fun _ => True));
    [|apply Forall_True..].
  intros row0 row1 _ _.
  apply (Forall_zip_with _ (fun _ => True) (fun _ => True));
    [|apply Forall_True..].
  intros x y _ _. lia.
Qed.

Lemma difference_pixels_eight_bit (a b : Image) :
  eight_bit a -> eight_bit b ->
  Forall (Forall (Forall (fun x => 0 <= x <= 255)))
    (zip_with (zip_with (zip_with (fun x y => Z.abs (x - y)))) a b).
Proof.
  intros Ha Hb.
  eapply Forall_zip_with; [|exact Ha|exact Hb].
  intros band0 band1 H0 H1.
  eapply Forall_zip_with; [|exact H0|exact H1].
  intros row0 row1 Hr0 Hr1.
  eapply Forall_zip_with; [|exact Hr0|exact Hr1].
  simpl. intros x y Hx Hy. lia.
Qed.

Lemma difference_pixels_identical (a : Image) :
  Forall (Forall (Forall (fun x => 0 <= x <= 0)))
    (zip_with (zip_with (zip_with (fun x y => Z.abs (x - y)))) a a).
Proof.
  induction a as [|band a IH]; simpl; constructor; [|done].
  clear IH. induction band as [|row band IH]; simpl; constructor; [|done].
  clear IH. induction row as [|x row IH]; simpl; constructor; [lia|done].
Qed.

Lemma same_dimensions_refl (a : Image) : same_dimensions a a.
Proof.
  unfold same_dimensions.
  induction a as [|band a IH]; constructor; [|done].
  clear IH. induction band; by constructor.
Qed.

Lemma difference_ratio_defined (a b : Image) :
  same_dimensions a b -> nonempty a -> ∃ r, Exact.difference_ratio a b = Ok r.
Proof.
  intros Hdim [Hne Hpix].
  assert (length a = length b) as Hlen by apply (Forall2_length _ _ _ Hdim).
  unfold Exact.difference_ratio, Exact.difference.
  rewrite <- Hlen, Nat.eqb_refl. simpl.
  rewrite (mean_difference _ _ Hdim Hpix). simpl.
  rewrite length_zip_with, <- Hlen, Nat.min_id.
  destruct (Nat.eqb_spec (length a) 0) as [E|E]; [|by eexists].
  destruct a; [done | discriminate].
Qed.

(** The ratio lies between the bounds of the difference image's pixels,
    scaled from [0, 255] to a percentage. *)
Lemma difference_ratio_between (lo hi : Z) (a b : Image) (r : Q) :
  Forall (Forall (Forall (fun x => lo <= x <= hi)))
    (zip_with (zip_with (zip_with (fun x y => Z.abs (x - y)))) a b) ->
  Exact.difference_ratio a b = Ok r ->
  (inject_Z lo / 255 * 100 <= r <= inject_Z hi / 255 * 100)%Q.
Proof.
  intros Hpix (ms & _ & Hms & Hne & ->)%difference_ratio_inv.
  destruct (mean_bounds _ _ _ _ Hpix Hms) as [_ Hb].
  assert (0 < inject_Z (Z.of_nat (length ms)))%Q as Hpos.
  { change 0%Q with (inject_Z 0). rewrite <- Zlt_Qlt.
    destruct ms; [done | simpl; lia]. }
  assert (inject_Z lo * inject_Z (Z.of_nat (length ms)) <= sum ms)%Q as Hlo.
  { clear Hms Hne Hpos. induction Hb as [|m ms [Hm _] _ IH].
    - unfold sum. cbn [fold_left length].
      change (inject_Z (Z.of_nat 0)) with 0%Q. lra.
    - rewrite sum_cons. cbn [length]. rewrite Nat2Z.inj_succ.
      unfold Z.succ. rewrite inject_Z_plus. change (inject_Z 1) with 1%Q. lra. }
  assert (sum ms <= inject_Z hi * inject_Z (Z.of_nat (length ms)))%Q as Hhi.
  { apply sum_le. eapply Forall_impl; [exact Hb|]. by intros m [_ ?]. }
  rewrite inject_Z_mult. change (inject_Z 255) with 255%Q.
  set (n := inject_Z (Z.of_nat (length ms))) in *.
  set (s := sum ms) in *.
  assert (s / (n * 255) * 100 == s / n * (100 / 255))%Q as -> by (field; lra).
  assert (inject_Z lo <= s / n)%Q by (apply Qle_shift_div_l; lra).
  assert (s / n <= inject_Z hi)%Q by (apply Qle_shift_div_r; lra).
  split.
  - assert (inject_Z lo / 255 * 100 == inject_Z lo * (100 / 255))%Q as ->
      by field.
    apply Qmult_le_compat_r; [done | by vm_compute].
  - assert (inject_Z hi / 255 * 100 == inject_Z hi * (100 / 255))%Q as ->
      by field.
    apply Qmult_le_compat_r; [done | by vm_compute].
Qed.

(** X1. The estimator is symmetric: swapping the two frames gives the
    same double, or the same exception, whatever the interpreter's
    [sum]. *)
Theorem difference_ratio_symmetric
    (float_sum : list spec_float -> spec_float) (a b : Image) :
  difference_ratio float_sum a b = difference_ratio float_sum b a.
Proof.
  unfold difference_ratio, ImageChops.difference.
  rewrite Nat.eqb_sym, (andb_comm (is_eight_bit a)).
  rewrite (zip_with_sym _ a b); [done|].
  intros band0 band1. apply zip_with_sym.
  intros row0 row1. apply zip_with_sym.
  intros x y. lia.
Qed.



(** *** The estimator in doubles: how it fails, and the sign of the ratio *)

Lemma of_int_raises (z : Z) (e : exn) :
  Float.of_int z = Raise e -> e = OverflowError.
Proof.
  unfold Float.of_int.
  destruct (binary_normalize _ _ _ _ _); congruence.
Qed.

Lemma double_mean_raises (image : Image) (e : exn) :
  ImageStat.mean image = Raise e ->
  e = ZeroDivisionError ∨ e = OverflowError.
Proof.
  induction image as [|band image IH]; simpl; [done|].
  unfold ImageStat.band_mean at 1.
  destruct (ImageStat.band_count band =? 0); simpl;
    [intros [= <-]; by left|].
  destruct (Float.of_int (ImageStat.band_sum band)) as [s|e1] eqn:Hs; simpl;
    [|intros [= <-]; right; by eapply of_int_raises].
  destruct (Float.of_int (ImageStat.band_count band)) as [c|e1] eqn:Hc; simpl;
    [|intros [= <-]; right; by eapply of_int_raises].
  destruct (ImageStat.mean image) as [ms|e1]; simpl; [done|].
  intros [= <-]. by apply IH.
Qed.

Lemma double_ratio_raises (float_sum : list spec_float -> spec_float)
    (a b : Image) (e : exn) :
  double_ratio float_sum a b = Raise e ->
  e = ValueError ∨ e = ZeroDivisionError ∨ e = OverflowError.
Proof.
  unfold double_ratio, difference_ratio, ImageChops.difference.
  destruct (negb _); simpl; [intros [= <-]; by left|].
  destruct (length a =? length b)%nat; simpl; [|intros [= <-]; by left].
  destruct (ImageStat.mean _) as [ms|e1] eqn:Hm; simpl.
  2:{ intros [= <-]. right. by eapply double_mean_raises. }
  destruct (length ms =? 0)%nat; simpl; [intros [= <-]; right; by left|].
  destruct (Float.of_int (Z.of_nat (length ms) * 255)) as [d|e1] eqn:Hd;
    simpl; [|intros [= <-]; right; right; by eapply of_int_raises].
  destruct (Float.value _); [done|]. intros [= <-]. by right; right.
Qed.

(** No operation of the estimator sets the sign bit: rounding keeps the
    sign it is given, and the operands are sums and counts. *)
Lemma binary_round_aux_sign (m e : Z) (l : location) :
  Float.not_negative (binary_round_aux 53 1024 false m e l) = true.
Proof.
  unfold binary_round_aux.
  destruct (shr_fexp 53 1024 m e l) as [mrs e1].
  destruct (shr_fexp 53 1024 _ e1 loc_Exact) as [mrs2 e2].
  destruct (shr_m mrs2); [done| |done].
  by destruct (e2 <=? 1024 - 53).
Qed.

Lemma binary_normalize_sign (z e : Z) :
  0 <= z -> Float.not_negative (binary_normalize 53 1024 z e false) = true.
Proof.
  intros Hz. unfold binary_normalize.
  destruct z as [|p|p]; [done| |lia].
  unfold binary_round.
  destruct (shl_align p e _) as [m1 e1].
  apply binary_round_aux_sign.
Qed.

Lemma of_int_sign (z : Z) (f : spec_float) :
  0 <= z -> Float.of_int z = Ok f -> Float.not_negative f = true.
Proof.
  intros Hz. unfold Float.of_int.
  pose proof (binary_normalize_sign z 0 Hz) as Hs.
  unfold Float.prec, Float.emax.
  destruct (binary_normalize 53 1024 z 0 false); intros [= <-]; done.
Qed.

Lemma div_sign (x y : spec_float) :
  Float.not_negative x = true -> Float.not_negative y = true ->
  Float.not_negative (Float.div x y) = true.
Proof.
  unfold Float.div, Float.prec, Float.emax, SFdiv.
  destruct x as [[]|[]| |[] mx ex], y as [[]|[]| |[] my ey]; try done.
  intros _ _.
  destruct (SFdiv_core_binary 53 1024 (Z.pos mx) ex (Z.pos my) ey)
    as [[mz ez] lz].
  apply binary_round_aux_sign.
Qed.

Lemma mul_sign (x y : spec_float) :
  Float.not_negative x = true -> Float.not_negative y = true ->
  Float.not_negative (Float.mul x y) = true.
Proof.
  unfold Float.mul, Float.prec, Float.emax, SFmul.
  destruct x as [[]|[]| |[] mx ex], y as [[]|[]| |[] my ey]; try done.
  intros _ _. apply binary_round_aux_sign.
Qed.

Lemma add_sign (x y : spec_float) :
  Float.not_negative x = true -> Float.not_negative y = true ->
  Float.not_negative (Float.add x y) = true.
Proof.
  unfold Float.add, Float.prec, Float.emax, SFadd.
  destruct x as [[]|[]| |[] mx ex], y as [[]|[]| |[] my ey]; try done.
  intros _ _. apply binary_normalize_sign. simpl. lia.
Qed.

Lemma sum_sign (l : list spec_float) (acc : spec_float) :
  Forall (fun m => Float.not_negative m = true) l ->
  Float.not_negative acc = true ->
  Float.not_negative (fold_left Float.add l acc) = true.
Proof.
  intros Hl. revert acc.
  induction Hl as [|m l Hm _ IH]; intros acc Hacc; simpl; [done|].
  apply IH. by apply add_sign.
Qed.

Lemma value_nonneg (f : spec_float) (q : Q) :
  Float.not_negative f = true -> Float.value f = Some q -> (0 <= q)%Q.
Proof.
  destruct f as [s|s| |s m e]; simpl; try done.
  - intros _ [= <-]. done.
  - destruct s; [done|]. intros _ [= <-].
    destruct e as [|p|p].
    + change 0%Q with (inject_Z 0). rewrite <- Zle_Qle. lia.
    + change 0%Q with (inject_Z 0). rewrite <- Zle_Qle. lia.
    + unfold Qle. simpl. lia.
Qed.

Lemma double_mean_sign (image : Image) (ms : list spec_float) :
  Forall (Forall (Forall (fun x => 0 <= x))) image ->
  ImageStat.mean image = Ok ms ->
  Forall (fun m => Float.not_negative m = true) ms.
Proof.
  intros Hpix. revert ms.
  induction Hpix as [|band image Hband _ IH]; intros ms; simpl.
  - by intros [= <-].
  - unfold ImageStat.band_mean at 1.
    destruct (ImageStat.band_count band =? 0); [done|].
    destruct (Float.of_int (ImageStat.band_sum band)) as [s|e] eqn:Hs;
      [|done].
    destruct (Float.of_int (ImageStat.band_count band)) as [c|e] eqn:Hc;
      [|done].
    simpl. destruct (ImageStat.mean image) as [ms'|e]; [|done]. simpl.
    intros [= <-]. constructor; [|by apply IH].
    apply div_sign.
    + eapply of_int_sign; [|exact Hs].
      apply Zsum_nonneg. by apply Forall_concat.
    + eapply of_int_sign; [|exact Hc]. unfold ImageStat.band_count. lia.
Qed.

Lemma ratio_3_11_nonneg (a b : Image) (r : Q) :
  ratio_3_11 a b = Ok r -> (0 <= r)%Q.
Proof.
  unfold ratio_3_11, double_ratio, difference_ratio, ImageChops.difference.
  destruct (negb _); [done|].
  destruct (length a =? length b)%nat; [|done]. simpl.
  destruct (ImageStat.mean _) as [ms|e] eqn:Hm; [|done]. simpl.
  destruct (length ms =? 0)%nat; [done|].
  destruct (Float.of_int (Z.of_nat (length ms) * 255)) as [d|e] eqn:Hd;
    [|done].
  simpl.
  destruct (Float.value _) as [q|] eqn:Hv; [|done].
  intros [= <-]. eapply value_nonneg; [|exact Hv].
  apply mul_sign; [|done].
  apply div_sign; [|eapply of_int_sign; [|exact Hd]; lia].
  apply sum_sign; [|done].
  eapply double_mean_sign; [|exact Hm].
  apply difference_pixels_nonneg.
Qed.

(** ** More on the loop: what every iteration keeps *)

Lemma dequeued_app (l1 l2 : list event) :
  dequeued (l1 ++ l2) = dequeued l2 ++ dequeued l1.
Proof. unfold dequeued. by rewrite rev_app_distr, omap_app. Qed.

Lemma dequeued_none (l : list event) :
  Forall (fun e => is_get e = false) l -> dequeued l = [].
Proof.
  intros H. unfold dequeued. apply Forall_rev in H.
  induction H as [|e l' He _ IH]; simpl; [done|].
  destruct e as [| |[job|]| | | | | |]; try done.
Qed.

Lemma setitem_length (i : Z) (v : Image) (r : result unit) (st st' : State) :
  setitem i v st = (r, st') ->
  length (processed_frames st') = length (processed_frames st).
Proof.
  unfold setitem.
  destruct (list_setitem _ i (Some v)) as [l|e] eqn:E; intros [= <- <-]; [|done].
  simpl. by eapply list_setitem_length.
Qed.

Lemma write_frames_length (job : Job) (first v : Image) (r : result unit)
    (st st' : State) :
  write_frames job first v st = (r, st') ->
  length (processed_frames st') = length (processed_frames st).
Proof.
  unfold write_frames. unfold mbind, M_bind.
  assert (∃ r0 st0,
    (if frame_index job =? 1 then setitem 0 first else mret ()) st = (r0, st0)
    ∧ length (processed_frames st0) = length (processed_frames st))
    as (r0 & st0 & -> & H0).
  { destruct (frame_index job =? 1).
    - destruct (setitem 0 first st) as [r0 st0] eqn:E. exists r0, st0.
      split; [done|]. by eapply setitem_length.
    - by exists (Ok tt), st. }
  destruct r0 as [[]|e]; [|by intros [= <- <-]].
  destruct (setitem (frame_index job * 2 - 1) v st0) as [[[]|e] st1] eqn:E1.
  - intros E2. apply setitem_length in E1, E2. congruence.
  - intros [= <- <-]. apply setitem_length in E1. congruence.
Qed.

(** The shape of every run of the loop body: the flags and the number
    of slots stay, the trace grows, and what was dequeued plus what is
    left in the queue is the queue as it was. *)
Lemma loop_body_shape (st st' : State) (r : result unit) :
  loop_body st = (r, st') ->
  running st' = running st
  ∧ pause st' = pause st
  ∧ length (processed_frames st') = length (processed_frames st)
  ∧ ∃ l, trace st' = l ++ trace st
         ∧ dequeued l ++ processing_queue st' = processing_queue st
         ∧ (length (dequeued l) <= 1)%nat.
Proof.
  destruct (pause st) eqn:Hp.
  { rewrite (loop_body_paused _ Hp). intros [= <- <-]. simpl.
    split_and!; try done. exists [EvSleep].
    split_and!; try done; simpl; lia. }
  destruct (processing_queue st) as [|job rest] eqn:Hq.
  { rewrite (loop_body_empty _ Hp Hq). intros [= <- <-]. simpl.
    split_and!; try done. exists [EvSleep; EvGet None].
    split_and!; try done; simpl; lia. }
  rewrite (loop_body_job _ _ _ Hp Hq).
  destruct (image0 job) as [first|].
  2:{ intros [= <- <-]. simpl. split_and!; try done.
      exists [EvGet (Some job)]. split_and!; try done; simpl; lia. }
  rewrite interpolate_eq.
  destruct (estimator first (image1 job)) as [ratio|e].
  2:{ intros [= <- <-]. simpl. split_and!; try done.
      exists [EvDifference first (image1 job); EvGet (Some job)].
      split_and!; try done; simpl; lia. }
  assert (∀ st2 l,
    running st2 = running st -> pause st2 = false ->
    length (processed_frames st2) = length (processed_frames st) ->
    processing_queue st2 = rest ->
    trace st2 = l ++ EvDifference first (image1 job) :: EvGet (Some job)
                  :: trace st ->
    Forall (fun e => is_get e = false) l ->
    running st2 = running st
    ∧ pause st2 = false
    ∧ length (processed_frames st2) = length (processed_frames st)
    ∧ ∃ l', trace st2 = l' ++ trace st
            ∧ dequeued l' ++ processing_queue st2 = job :: rest
            ∧ (length (dequeued l') <= 1)%nat) as Hshape.
  { intros st2 l Hr2 Hp2 Hf2 Hq2 Ht2 Hl. split_and!; try done.
    exists (l ++ [EvDifference first (image1 job); EvGet (Some job)]).
    rewrite dequeued_app, (dequeued_none l Hl), Hq2.
    split_and!; [rewrite Ht2; trace_eq | done | simpl; lia]. }
  destruct (interpolated job first ratio _) as [[v|e] st2] eqn:Hi;
    apply interpolated_quiet in Hi
      as (Hr2 & Hp2 & Hq2 & Hf2 & _ & lg & Hlg & Hg); simpl in *.
  - intros Hw. pose proof (write_frames_length _ _ _ _ _ _ Hw) as Hlen.
    apply write_frames_writes_only in Hw
      as (Hr3 & Hp3 & Hq3 & _ & _ & lw & Hlw & Hevw).
    assert (trace st' = (lw ++ lg) ++ EvDifference first (image1 job)
                          :: EvGet (Some job) :: trace st) as Ht
      by (rewrite Hlw, Hlg; trace_eq).
    assert (Forall (fun e => is_get e = false) (lw ++ lg)) as Hev.
    { apply Forall_app. split.
      - eapply Forall_impl; [exact Hevw|]. by intros [].
      - eapply Forall_impl; [exact Hg|]. by intros ? []. }
    apply (Hshape st' (lw ++ lg)); congruence.
  - intros [= <- <-].
    assert (Forall (fun e => is_get e = false) lg) as Hev
      by (eapply Forall_impl; [exact Hg|]; by intros ? []).
    apply (Hshape st2 lg); congruence.
Qed.

Lemma iteration_shape (st st' : State) (o : outcome) :
  iteration st = (o, st') ->
  running st' = running st
  ∧ pause st' = pause st
  ∧ length (processed_frames st') = length (processed_frames st)
  ∧ ∃ l, trace st' = l ++ trace st
         ∧ dequeued l ++ processing_queue st' = processing_queue st
         ∧ (length (dequeued l) <= 1)%nat.
Proof.
  unfold iteration. destruct (loop_body st) as [[u|e] st1] eqn:Hb;
    apply loop_body_shape in Hb as (Hr & Hp & Hf & l & Hl & Hd & Hn).
  - intros [= <- <-]. split_and!; try done. by exists l.
  - assert (st' = st1 ∨ st' = emit (EvException e) st1 ->
            running st' = running st
            ∧ pause st' = pause st
            ∧ length (processed_frames st') = length (processed_frames st)
            ∧ ∃ l', trace st' = l' ++ trace st
                    ∧ dequeued l' ++ processing_queue st' = processing_queue st
                    ∧ (length (dequeued l') <= 1)%nat) as Hcase.
    { intros [-> | ->]; simpl; (split_and!; try done).
      - by exists l.
      - exists (EvException e :: l). rewrite Hl.
        change (EvException e :: l) with ([EvException e] ++ l).
        rewrite dequeued_app. simpl. rewrite app_nil_r. done. }
    destruct e; intros [= <- <-]; apply Hcase; auto.
Qed.

(** X5. An iteration of the loop never changes the running flag or the
    pause flag, never changes the number of slots of the processed
    frames, and takes at most one job, from the head of the queue. *)
Theorem iteration_keeps_flags_and_slots (st st' : State) (o : outcome) :
  iteration st = (o, st') ->
  running st' = running st
  ∧ pause st' = pause st
  ∧ length (processed_frames st') = length (processed_frames st)
  ∧ (processing_queue st' = processing_queue st
     ∨ ∃ job, processing_queue st = job :: processing_queue st'
              ∧ EvGet (Some job) ∈ new_events st st').
Proof.
  intros (Hr & Hp & Hf & l & Hl & Hd & Hn)%iteration_shape.
  split_and!; try done.
  destruct (dequeued l) as [|job [|job' d]] eqn:E; simpl in *; [by left| |lia].
  right. exists job. split; [done|].
  rewrite (new_events_app _ _ _ Hl).
  assert (job ∈ dequeued l) as Hin by (rewrite E; by left).
  unfold dequeued in Hin. apply list_elem_of_omap in Hin as (e & He & Hj).
  apply list_elem_of_In, in_rev, list_elem_of_In in He.
  destruct e as [| |[job0|]| | | | | |]; try done. by injection Hj as ->.
Qed.

Lemma env_steps_queue (actions : list env_action) (st : State) :
  processing_queue (foldl env_step st actions)
  = processing_queue st ++ put_jobs actions.
Proof.
  revert st. induction actions as [|a actions IH]; intros st; simpl.
  - by rewrite app_nil_r.
  - rewrite IH. destruct a; simpl; try done. by rewrite <- app_assoc.
Qed.

Lemma env_steps_running (actions : list env_action) (st : State) :
  Forall (fun a => a ≠ Sigterm) actions ->
  running (foldl env_step st actions) = running st.
Proof.
  intros H. revert st.
  induction H as [|a actions Ha _ IH]; intros st; simpl; [done|].
  rewrite IH. by destruct a.
Qed.

(** X6. Only SIGTERM clears the running flag: over a schedule without
    SIGTERM the flag is at the end what it was at the start, also when
    the loop was left by an exception.  The number of slots never
    changes. *)
Theorem only_sigterm_clears_running (schedule : list (list env_action))
    (st st' : State) (status : run_status) :
  run_loop schedule st = (status, st') ->
  length (processed_frames st') = length (processed_frames st)
  ∧ (Forall (Forall (fun a => a ≠ Sigterm)) schedule ->
     running st' = running st).
Proof.
  revert st. induction schedule as [|actions schedule IH]; intros st; simpl.
  - by destruct (running st) eqn:Hr; intros [= <- <-].
  - destruct (running st) eqn:Hr; [|by intros [= <- <-]].
    destruct (iteration st) as [[] st1] eqn:Hit;
      apply iteration_shape in Hit as (Hr1 & _ & Hf1 & _).
    + intros [Hf Hrun]%IH.
      destruct (env_steps_frame actions st1) as (_ & Hf2 & _).
      split; [congruence|].
      intros Hs. apply Forall_cons in Hs as [Ha Hs].
      rewrite (Hrun Hs), (env_steps_running _ _ Ha). congruence.
    + intros [= <- <-]. split; [done|]. intros _. congruence.
Qed.

(** X7. Jobs leave the queue in the order they are in it, each once:
    the jobs dequeued during a run, followed by the jobs left in the
    queue, are the jobs that were in the queue followed by those put on
    it meanwhile. *)
Theorem queue_is_fifo (schedule : list (list env_action)) (st st' : State)
    (status : run_status) :
  run_loop schedule st = (status, st') ->
  ∃ puts,
    puts `prefix_of` put_jobs (concat schedule)
    ∧ dequeued (new_events st st') ++ processing_queue st'
      = processing_queue st ++ puts.
Proof.
  intros Hrun.
  assert (∃ l puts, trace st' = l ++ trace st
                    ∧ puts `prefix_of` put_jobs (concat schedule)
                    ∧ dequeued l ++ processing_queue st'
                      = processing_queue st ++ puts)
    as (l & puts & Hl & Hp & Hq).
  2:{ exists puts. by rewrite (new_events_app _ _ _ Hl). }
  revert st Hrun.
  induction schedule as [|actions schedule IH]; intros st; simpl.
  - destruct (running st); intros [= <- <-]; exists [], [];
      by rewrite app_nil_r.
  - destruct (running st) eqn:Hr.
    2:{ intros [= <- <-]. exists [], []. rewrite app_nil_r.
        split_and!; try done. apply prefix_nil. }
    destruct (iteration st) as [[] st1] eqn:Hit;
      apply iteration_shape in Hit as (_ & _ & _ & l1 & Hl1 & Hd1 & _).
    + intros (l2 & puts & Hl2 & Hp & Hq)%IH.
      destruct (env_steps_frame actions st1) as (Ht & _).
      rewrite env_steps_queue in Hq. rewrite Ht in Hl2.
      exists (l2 ++ l1), (put_jobs actions ++ puts). split_and!.
      * rewrite Hl2, Hl1. trace_eq.
      * unfold put_jobs at 2. rewrite omap_app. by apply prefix_app.
      * rewrite dequeued_app, <- app_assoc, Hq, !app_assoc. by rewrite Hd1.
    + intros [= <- <-]. exists l1, []. rewrite app_nil_r.
      split_and!; try done. apply prefix_nil.
Qed.

(** X8. A worker with an empty queue only polls: as long as no job is
    put on the queue it attempts a dequeue (when not paused) and sleeps,
    and leaves the queue, the processed frames and the cache as they
    are. *)
Theorem idle_worker_only_polls (schedule : list (list env_action))
    (st st' : State) (status : run_status) :
  processing_queue st = [] ->
  Forall (Forall (fun a => ∀ job, a ≠ Put job)) schedule ->
  run_loop schedule st = (status, st') ->
  processing_queue st' = []
  ∧ processed_frames st' = processed_frames st
  ∧ processor_objects st' = processor_objects st
  ∧ Forall (fun e => e = EvSleep ∨ e = EvGet None) (new_events st st').
Proof.
  intros Hq Hs Hrun.
  assert (processing_queue st' = []
          ∧ processed_frames st' = processed_frames st
          ∧ processor_objects st' = processor_objects st
          ∧ (∃ l, trace st' = l ++ trace st
                  ∧ Forall (fun e => e = EvSleep ∨ e = EvGet None) l))
    as (H1 & H2 & H3 & (l & Hl & Hev)).
  2:{ split_and!; try done. by rewrite (new_events_app _ _ _ Hl). }
  revert st Hq Hrun.
  induction Hs as [|actions schedule Ha _ IH]; intros st Hq; simpl.
  - destruct (running st) eqn:Hr; intros [= <- <-];
      (split_and!; try done); by exists [].
  - destruct (running st) eqn:Hr.
    2:{ intros [= <- <-]. split_and!; try done. by exists []. }
    assert (∃ l1 st1, iteration st = (Continue, st1)
                      ∧ trace st1 = l1 ++ trace st
                      ∧ Forall (fun e => e = EvSleep ∨ e = EvGet None) l1
                      ∧ processing_queue st1 = []
                      ∧ processed_frames st1 = processed_frames st
                      ∧ processor_objects st1 = processor_objects st)
      as (l1 & st1 & -> & Hl1 & Hev1 & Hq1 & Hf1 & Hc1).
    { destruct (pause st) eqn:Hp.
      - exists [EvSleep], (emit EvSleep st).
        rewrite (iteration_paused _ Hp). split_and!; try done.
        repeat constructor.
      - exists [EvSleep; EvGet None], (emit EvSleep (emit (EvGet None) st)).
        unfold iteration. rewrite (loop_body_empty _ Hp Hq).
        split_and!; try done.
        apply Forall_cons_2; [by left|]. apply Forall_cons_2; [by right|].
        apply Forall_nil_2. }
    intros Hrun.
    destruct (env_steps_frame actions st1) as (Ht & Hf & _).
    pose proof (env_steps_cache actions st1) as Hc.
    pose proof (env_steps_queue actions st1) as Hq2.
    assert (put_jobs actions = []) as Hputs.
    { clear -Ha. induction Ha as [|a actions Ha _ IH]; [done|].
      destruct a as [| |job]; [exact IH | exact IH | by destruct (Ha job)]. }
    rewrite Hputs, app_nil_r, Hq1 in Hq2.
    destruct (IH _ Hq2 Hrun) as (H1 & H2 & H3 & (l & Hl & Hev)).
    split; [done|]. split; [congruence|]. split; [congruence|].
    exists (l ++ l1). split.
    + rewrite Hl, Ht, Hl1. trace_eq.
    + by apply Forall_app.
Qed.

(** ** More on the writes *)

Lemma write_frames_other_slots (job : Job) (first v : Image)
    (r : result unit) (st st' : State) (i : nat) :
  0 < frame_index job ->
  write_frames job first v st = (r, st') ->
  Z.of_nat i ∉ job_slots job ->
  processed_frames st' !! i = processed_frames st !! i.
Proof.
  intros Hk. unfold write_frames, job_slots. unfold_M.
  destruct (Z.eqb_spec (frame_index job) 1) as [E|E]; simpl.
  - rewrite !not_elem_of_cons. intros Hw (H0 & H1 & H2 & _). revert Hw.
    rewrite setitem_nonneg by lia.
    case_decide; [|by intros [= <- <-]].
    rewrite setitem_nonneg by lia. simpl.
    case_decide.
    2:{ intros [= <- <-]. simpl. rewrite list_lookup_insert_ne by lia. done. }
    rewrite setitem_nonneg by lia. simpl.
    case_decide; intros [= <- <-]; simpl;
      rewrite !list_lookup_insert_ne by lia; done.
  - rewrite !not_elem_of_cons. intros Hw (H1 & H2 & _). revert Hw.
    rewrite setitem_nonneg by lia.
    case_decide; [|by intros [= <- <-]].
    rewrite setitem_nonneg by lia. simpl.
    case_decide; intros [= <- <-]; simpl;
      rewrite !list_lookup_insert_ne by lia; done.
Qed.

(** X9. A job with a positive frame index [k] changes no slot but its
    own: [2k-1] and [2k], and slot 0 when [k = 1].  Every other slot is
    after the iteration what it was before, whatever the outcome. *)
Theorem job_writes_only_its_slots (st st' : State) (o : outcome) (job : Job)
    (rest : list Job) (i : nat) :
  pause st = false ->
  processing_queue st = job :: rest ->
  0 < frame_index job ->
  iteration st = (o, st') ->
  Z.of_nat i ∉ job_slots job ->
  processed_frames st' !! i = processed_frames st !! i.
Proof.
  intros Hp Hq Hk Hit Hi.
  assert (∃ r st1, loop_body st = (r, st1)
                   ∧ processed_frames st' = processed_frames st1)
    as (r & st1 & Hb & ->).
  { unfold iteration in Hit. destruct (loop_body st) as [[u|e] st1].
    - injection Hit as <- <-. by eexists _, _.
    - destruct e; injection Hit as <- <-; by eexists _, _. }
  rewrite (loop_body_job _ _ _ Hp Hq) in Hb.
  destruct (image0 job) as [first|]; [|by injection Hb as <- <-].
  rewrite interpolate_eq in Hb.
  destruct (estimator first (image1 job)) as [ratio|e];
    [|by injection Hb as <- <-].
  destruct (interpolated job first ratio _) as [[v|e] st2] eqn:Hg;
    apply interpolated_quiet in Hg as (_ & _ & _ & Hf & _); simpl in Hf.
  - rewrite (write_frames_other_slots _ _ _ _ _ _ _ Hk Hb Hi). by rewrite Hf.
  - injection Hb as <- <-. by rewrite Hf.
Qed.

Lemma write_frames_out_of_range (job : Job) (first v : Image) (st : State) :
  0 < frame_index job ->
  Z.of_nat (length (processed_frames st)) <= 2 * frame_index job ->
  ∃ st', write_frames job first v st = (Raise IndexError, st').
Proof.
  intros Hk Hlen. unfold write_frames. unfold_M.
  destruct (Z.eqb_spec (frame_index job) 1) as [E|E].
  - rewrite setitem_nonneg by lia.
    case_decide; [|by eexists].
    rewrite setitem_nonneg by lia. simpl. rewrite length_insert.
    case_decide; [|by eexists].
    rewrite setitem_nonneg by lia. simpl. rewrite !length_insert.
    case_decide; [lia | by eexists].
  - rewrite setitem_nonneg by lia.
    case_decide; [|by eexists].
    rewrite setitem_nonneg by lia. simpl. rewrite !length_insert.
    case_decide; [lia | by eexists].
Qed.

(** X10. A job whose frame index is too large for the processed frames
    ([2k] is not a valid index) can only end the loop: whichever branch
    it takes, the iteration breaks, and the job is gone from the
    queue. *)
Theorem frame_index_out_of_range_breaks (st : State) (job : Job)
    (rest : list Job) (first : Image) :
  pause st = false ->
  processing_queue st = job :: rest ->
  image0 job = Some first ->
  0 < frame_index job ->
  Z.of_nat (length (processed_frames st)) <= 2 * frame_index job ->
  ∃ st', iteration st = (Break, st') ∧ processing_queue st' = rest.
Proof.
  intros Hp Hq Hf Hk Hlen.
  assert (∃ e st1, loop_body st = (Raise e, st1)
                   ∧ processing_queue st1 = rest) as (e & st1 & Hb & Hq1).
  { rewrite (loop_body_job _ _ _ Hp Hq), Hf, interpolate_eq.
    destruct (estimator first (image1 job)) as [ratio|e];
      [|by eexists _, _].
    destruct (interpolated job first ratio _) as [[v|e] st2] eqn:Hg;
      apply interpolated_quiet in Hg as (_ & _ & Hq2 & Hf2 & _);
      simpl in Hq2, Hf2; [|by eexists _, _].
    destruct (write_frames_out_of_range job first v st2 Hk) as [st3 Hw].
    { by rewrite Hf2. }
    rewrite Hw. exists IndexError, st3. split; [done|].
    apply write_frames_writes_only in Hw as (_ & _ & -> & _). done. }
  destruct (iteration_break _ _ _ Hb) as (st' & Hit & [-> | ->]);
    eexists; split; done.
Qed.

Lemma loop_body_scene_change (st : State) (job : Job) (rest : list Job)
    (first : Image) (ratio : Q) :
  pause st = false ->
  processing_queue st = job :: rest ->
  image0 job = Some first ->
  estimator first (image1 job) = Ok ratio ->
  (difference_threshold job <= ratio)%Q ->
  loop_body st
  = write_frames job first first
      (emit (EvDifference first (image1 job))
         (emit (EvGet (Some job)) (set_processing_queue rest st))).
Proof.
  intros Hp Hq Hf Hr Hge%Qltb_ge.
  rewrite (loop_body_job _ _ _ Hp Hq), Hf, interpolate_eq, Hr.
  by rewrite (interpolated_above _ _ _ _ Hge).
Qed.

(** X11. There is no rollback.  When the processed frames end just
    before slot [2k], the write of slot [2k] raises [IndexError] and the
    loop is left with the error logged, but slot [2k-1] (and slot 0 for
    [k = 1]) keep what the job had already written. *)
Theorem failed_write_keeps_earlier_writes (st : State) (job : Job)
    (rest : list Job) (first : Image) (ratio : Q) :
  pause st = false ->
  processing_queue st = job :: rest ->
  image0 job = Some first ->
  0 < frame_index job ->
  Z.of_nat (length (processed_frames st)) = 2 * frame_index job ->
  estimator first (image1 job) = Ok ratio ->
  (difference_threshold job <= ratio)%Q ->
  ∃ st',
    iteration st = (Break, st')
    ∧ head (trace st') = Some (EvException IndexError)
    ∧ slot st' (2 * frame_index job - 1) first
    ∧ (frame_index job = 1 -> slot st' 0 first).
Proof.
  intros Hp Hq Hf Hk Hlen Hr Hge.
  unfold iteration.
  rewrite (loop_body_scene_change _ _ _ _ _ Hp Hq Hf Hr Hge).
  unfold write_frames, slot. unfold_M.
  replace (frame_index job * 2 - 1) with (2 * frame_index job - 1) by lia.
  replace (frame_index job * 2) with (2 * frame_index job) by lia.
  destruct (Z.eqb_spec (frame_index job) 1) as [E|E].
  - rewrite setitem_nonneg by lia. simpl.
    case_decide; [|lia].
    rewrite setitem_nonneg by lia. simpl. rewrite length_insert.
    case_decide; [|lia].
    rewrite setitem_nonneg by lia. simpl. rewrite !length_insert.
    case_decide; [lia|].
    eexists. split; [done|]. simpl. split_and!; try done; try lia.
    + apply list_lookup_insert_eq. rewrite length_insert. lia.
    + intros _. split; [lia|]. rewrite list_lookup_insert_ne by lia.
      apply list_lookup_insert_eq. lia.
  - rewrite setitem_nonneg by lia. simpl.
    case_decide; [|lia].
    rewrite setitem_nonneg by lia. simpl. rewrite !length_insert.
    case_decide; [lia|].
    eexists. split; [done|]. simpl. split_and!; try done; try lia.
    apply list_lookup_insert_eq. lia.
Qed.

Lemma setitem_negative (i : Z) (v : Image) (st : State) :
  i < 0 -> - Z.of_nat (length (processed_frames st)) <= i ->
  setitem i v st
  = (Ok tt,
     emit (EvSetitem i v)
       (set_processed_frames
          (<[Z.to_nat (i + Z.of_nat (length (processed_frames st))) := Some v]>
             (processed_frames st)) st)).
Proof.
  intros Hi Hn. unfold setitem, list_setitem.
  destruct (Z.ltb_spec i 0) as [_|?]; [|lia].
  destruct (Z.leb_spec 0 (i + Z.of_nat (length (processed_frames st))));
    [|lia].
  destruct (Z.ltb_spec (i + Z.of_nat (length (processed_frames st)))
              (Z.of_nat (length (processed_frames st)))); [done|lia].
Qed.

(** X12. Indices wrap around as in Python.  A job with a first frame
    and a frame index [k <= 0] is not rejected: below the end of the
    list its writes count from the end, so the reused frame lands in slot
    [n + 2k - 1] and the second frame in slot [2k mod n] of the [n]
    slots. *)
Theorem nonpositive_frame_index_wraps (st : State) (job : Job)
    (rest : list Job) (first : Image) (ratio : Q) :
  let n := Z.of_nat (length (processed_frames st)) in
  pause st = false ->
  processing_queue st = job :: rest ->
  image0 job = Some first ->
  frame_index job <= 0 ->
  1 - 2 * frame_index job < n ->
  estimator first (image1 job) = Ok ratio ->
  (difference_threshold job <= ratio)%Q ->
  ∃ st',
    iteration st = (Continue, st')
    ∧ processed_frames st' !! Z.to_nat (n + 2 * frame_index job - 1)
      = Some (Some first)
    ∧ processed_frames st' !! Z.to_nat ((2 * frame_index job) mod n)
      = Some (Some (image1 job)).
Proof.
  intros n Hp Hq Hf Hk Hlen Hr Hge.
  unfold iteration.
  rewrite (loop_body_scene_change _ _ _ _ _ Hp Hq Hf Hr Hge).
  unfold write_frames. unfold_M.
  destruct (Z.eqb_spec (frame_index job) 1) as [E|_]; [lia|].
  rewrite setitem_negative by (simpl; fold n; lia). simpl. fold n.
  destruct (decide (frame_index job = 0)) as [E0|E0].
  - rewrite setitem_nonneg by lia. simpl. rewrite length_insert. fold n.
    case_decide; [|lia].
    eexists. split; [done|]. simpl. split.
    + rewrite list_lookup_insert_ne by lia.
      replace (Z.to_nat (n + 2 * frame_index job - 1))
        with (Z.to_nat (frame_index job * 2 - 1 + n)) by lia.
      apply list_lookup_insert_eq. lia.
    + replace ((2 * frame_index job) mod n) with (frame_index job * 2)
        by (rewrite E0; simpl; by rewrite Z.mod_0_l by lia).
      apply list_lookup_insert_eq. rewrite length_insert. lia.
  - rewrite setitem_negative by (simpl; rewrite ?length_insert; fold n; lia).
    simpl. rewrite length_insert. fold n.
    eexists. split; [done|]. simpl. split.
    + rewrite list_lookup_insert_ne by lia.
      replace (Z.to_nat (n + 2 * frame_index job - 1))
        with (Z.to_nat (frame_index job * 2 - 1 + n)) by lia.
      apply list_lookup_insert_eq. lia.
    + replace ((2 * frame_index job) mod n) with (frame_index job * 2 + n).
      * apply list_lookup_insert_eq. rewrite length_insert. lia.
      * apply Z.mod_unique with (q := -1); lia.
Qed.

(** ** More on failures and on the test against the threshold *)

(** What the two [except] clauses add to the state the body left. *)
Lemma iteration_after_body (st st1 st' : State) (r : result unit)
    (o : outcome) :
  loop_body st = (r, st1) ->
  iteration st = (o, st') ->
  running st' = running st1
  ∧ pause st' = pause st1
  ∧ processing_queue st' = processing_queue st1
  ∧ processed_frames st' = processed_frames st1
  ∧ processor_objects st' = processor_objects st1
  ∧ constructed st' = constructed st1
  ∧ ∃ l, trace st' = l ++ trace st1
         ∧ Forall (fun e => is_get e = false ∧ is_setitem e = false
                            ∧ is_processor_event e = false) l.
Proof.
  intros Hb. unfold iteration. rewrite Hb.
  assert (st' = st1 ∨ (∃ e, st' = emit (EvException e) st1) ->
          running st' = running st1
          ∧ pause st' = pause st1
          ∧ processing_queue st' = processing_queue st1
          ∧ processed_frames st' = processed_frames st1
          ∧ processor_objects st' = processor_objects st1
          ∧ constructed st' = constructed st1
          ∧ ∃ l, trace st' = l ++ trace st1
                 ∧ Forall (fun e => is_get e = false ∧ is_setitem e = false
                                    ∧ is_processor_event e = false) l)
    as Hcase.
  { intros [-> | [e ->]]; simpl; (split_and!; try done).
    - by exists [].
    - exists [EvException e]. split; [done|]. by repeat constructor. }
  destruct r as [u|e]; [intros [= <- <-]; apply Hcase; auto|].
  destruct e; intros [= <- <-]; apply Hcase; eauto.
Qed.

(** An exception of the estimator, other than the two of the first
    [except] clause, is logged and ends the loop. *)
Lemma estimator_failure_breaks (st : State) (job : Job)
    (rest : list Job) (first : Image) (e : exn) :
  running st = true ->
  pause st = false ->
  processing_queue st = job :: rest ->
  image0 job = Some first ->
  estimator first (image1 job) = Raise e ->
  e ≠ SystemExit ->
  e ≠ KeyboardInterrupt ->
  let st' := emit (EvException e)
               (emit (EvDifference first (image1 job))
                  (emit (EvGet (Some job)) (set_processing_queue rest st))) in
  iteration st = (Break, st')
  ∧ processed_frames st' = processed_frames st
  ∧ ∀ actions schedule, run_loop (actions :: schedule) st = (Exited, st').
Proof.
  intros Hrun Hp Hq Hf Hr He1 He2 st'.
  assert (iteration st = (Break, st')) as Hit.
  { unfold iteration.
    rewrite (loop_body_job _ _ _ Hp Hq), Hf, interpolate_eq, Hr.
    by destruct e. }
  split; [done|]. split; [done|].
  intros actions schedule. simpl. by rewrite Hrun, Hit.
Qed.

(** X14. When the processor object is there (cached, or constructed for
    this job) but [process] raises, the loop is left: no slot is written,
    the jobs behind stay in the queue, and the processor object is in the
    cache. *)
Theorem processor_failure_terminates (st : State) (job : Job)
    (rest : list Job) (first : Image) (ratio : Q) (e : exn) :
  running st = true ->
  pause st = false ->
  processing_queue st = job :: rest ->
  image0 job = Some first ->
  estimator first (image1 job) = Ok ratio ->
  (ratio < difference_threshold job)%Q ->
  (is_Some (processor_objects st !! algorithm job)
   ∨ ∃ cls, ALGORITHM_CLASSES !! algorithm job = Some cls
            ∧ class_init cls 0 = Ok tt) ->
  (∀ p, process_output p first (image1 job) = Raise e) ->
  ∃ st',
    iteration st = (Break, st')
    ∧ processed_frames st' = processed_frames st
    ∧ processing_queue st' = rest
    ∧ is_Some (processor_objects st' !! algorithm job)
    ∧ Forall (fun ev => is_setitem ev = false) (new_events st st')
    ∧ ∀ actions schedule, run_loop (actions :: schedule) st = (Exited, st').
Proof.
  intros Hrun Hp Hq Hf Hr Hlt%Qltb_lt Havail Hfail.
  pose (st1 := emit (EvDifference first (image1 job))
                 (emit (EvGet (Some job)) (set_processing_queue rest st))).
  assert (∃ p st2, get_or_create (algorithm job) st1 = (Ok p, st2))
    as (p & st2 & Hg).
  { destruct (processor_objects st !! algorithm job) as [p|] eqn:Hc.
    - exists p, st1. by apply get_or_create_hit.
    - destruct Havail as [[? [=]]|(cls & Hk & Hi)].
      eexists _, _. by apply (get_or_create_new (algorithm job) cls st1). }
  pose proof (get_or_create_cached _ _ _ _ Hg) as Hc2.
  pose proof (get_or_create_quiet _ _ _ _ Hg)
    as (_ & _ & Hq2 & Hf2 & _ & lg & Hlg & Hevg).
  assert (loop_body st
          = (Raise e, emit (EvProcess p first (image1 job)) st2)) as Hb.
  { rewrite (loop_body_job _ _ _ Hp Hq), Hf, interpolate_eq, Hr. fold st1.
    unfold interpolated. rewrite Hlt. unfold mbind, M_bind.
    by rewrite Hg, process_eq, Hfail. }
  destruct (iteration st) as [o st'] eqn:Hit.
  destruct (iteration_after_body _ _ _ _ _ Hb Hit)
    as (_ & _ & Hq' & Hf' & Hc' & _ & l & Hl & Hev).
  assert (o = Break) as ->.
  { unfold iteration in Hit. rewrite Hb in Hit.
    by destruct e; injection Hit as <- _. }
  exists st'. split; [done|]. simpl in *.
  split; [congruence|]. split; [congruence|].
  split; [rewrite Hc'; by eexists|]. split.
  - rewrite (new_events_app st st'
               (l ++ EvProcess p first (image1 job) :: lg
                  ++ [EvDifference first (image1 job); EvGet (Some job)])).
    2:{ rewrite Hl. simpl. rewrite Hlg. unfold st1. simpl. trace_eq. }
    rewrite Forall_app, Forall_cons, Forall_app. split_and!; try done.
    + eapply Forall_impl; [exact Hev|]. by intros ? (_ & ? & _).
    + eapply Forall_impl; [exact Hevg|]. by intros ? [_ ?].
    + by repeat constructor.
  - intros actions schedule. simpl. by rewrite Hrun, Hit.
Qed.

(** With an estimator that gives no negative ratio, a job whose
    threshold is 0 or less never reaches the processor. *)
Lemma nonnegative_ratio_never_interpolates (st st' : State)
    (o : outcome) (job : Job) (rest : list Job) :
  (∀ a b r, estimator a b = Ok r -> (0 <= r)%Q) ->
  pause st = false ->
  processing_queue st = job :: rest ->
  (difference_threshold job <= 0)%Q ->
  iteration st = (o, st') ->
  processor_objects st' = processor_objects st
  ∧ constructed st' = constructed st
  ∧ Forall (fun e => is_processor_event e = false) (new_events st st').
Proof.
  intros Hnonneg Hp Hq Hthr Hit.
  destruct (loop_body st) as [r st1] eqn:Hb.
  destruct (iteration_after_body _ _ _ _ _ Hb Hit)
    as (_ & _ & _ & _ & Hc & Hn & l & Hl & Hev).
  assert (processor_objects st1 = processor_objects st
          ∧ constructed st1 = constructed st
          ∧ ∃ l1, trace st1 = l1 ++ trace st
                  ∧ Forall (fun e => is_processor_event e = false) l1)
    as (Hc1 & Hn1 & l1 & Hl1 & Hev1).
  { rewrite (loop_body_job _ _ _ Hp Hq) in Hb.
    destruct (image0 job) as [first|] eqn:Hf.
    2:{ injection Hb as <- <-. split_and!; try done.
        exists [EvGet (Some job)]. split; [done|]. by repeat constructor. }
    rewrite interpolate_eq in Hb.
    destruct (estimator first (image1 job)) as [ratio|e] eqn:Hr.
    2:{ injection Hb as <- <-. split_and!; try done.
        exists [EvDifference first (image1 job); EvGet (Some job)].
        split; [done|]. by repeat constructor. }
    assert (Qltb ratio (difference_threshold job) = false) as Hge.
    { apply Qltb_ge. apply Hnonneg in Hr. lra. }
    rewrite (interpolated_above _ _ _ _ Hge) in Hb.
    apply write_frames_writes_only in Hb
      as (_ & _ & _ & Hc1 & Hn1 & lw & Hlw & Hevw).
    split_and!; try done.
    exists (lw ++ [EvDifference first (image1 job); EvGet (Some job)]).
    split; [rewrite Hlw; trace_eq|].
    apply Forall_app. split; [|by repeat constructor].
    eapply Forall_impl; [exact Hevw|]. by intros []. }
  split; [congruence|]. split; [congruence|].
  rewrite (new_events_app st st' (l ++ l1)).
  - apply Forall_app. split; [|done].
    eapply Forall_impl; [exact Hev|]. by intros ? (_ & _ & ?).
  - rewrite Hl, Hl1. trace_eq.
Qed.

(** ** More on the cache *)

Lemma cache_ok_same (st st' : State) :
  processor_objects st' = processor_objects st ->
  constructed st' = constructed st ->
  cache_ok st -> cache_ok st'.
Proof. unfold cache_ok. by intros -> ->. Qed.

Lemma get_or_create_cache_ok (algorithm : string) (r : result Processor)
    (st st' : State) :
  get_or_create algorithm st = (r, st') -> cache_ok st -> cache_ok st'.
Proof.
  destruct (processor_objects st !! algorithm) as [p|] eqn:Hc.
  { rewrite (get_or_create_hit _ _ _ Hc). by intros [= <- <-]. }
  destruct (ALGORITHM_CLASSES !! algorithm) as [cls|] eqn:Hk.
  2:{ rewrite (get_or_create_unknown _ _ Hc Hk). intros [= <- <-].
      by apply cache_ok_same. }
  destruct (class_init cls 0) as [[]|e] eqn:Hi.
  2:{ rewrite (get_or_create_init_fails _ _ _ _ Hc Hk Hi). intros [= <- <-].
      by apply cache_ok_same. }
  rewrite (get_or_create_new _ _ _ Hc Hk Hi). intros [= <- <-].
  intros [Hent Hsize]. unfold cache_ok. simpl. split.
  - intros name p. rewrite lookup_insert. case_decide as Hn.
    + intros [= <-]. simpl. subst. split_and!; [done | done | lia].
    + intros Hp. destruct (Hent _ _ Hp) as (? & ? & ?).
      split_and!; [done | done | lia].
  - rewrite map_size_insert_None by done. by rewrite Hsize.
Qed.

Lemma loop_body_cache_ok (st st' : State) (r : result unit) :
  loop_body st = (r, st') -> cache_ok st -> cache_ok st'.
Proof.
  destruct (pause st) eqn:Hp.
  { rewrite (loop_body_paused _ Hp). intros [= <- <-]. by apply cache_ok_same. }
  destruct (processing_queue st) as [|job rest] eqn:Hq.
  { rewrite (loop_body_empty _ Hp Hq). intros [= <- <-]. by apply cache_ok_same. }
  rewrite (loop_body_job _ _ _ Hp Hq).
  destruct (image0 job) as [first|];
    [|intros [= <- <-]; by apply cache_ok_same].
  rewrite interpolate_eq.
  destruct (estimator first (image1 job)) as [ratio|e];
    [|intros [= <- <-]; by apply cache_ok_same].
  intros Hb Hok.
  assert (∃ r2 st2,
            interpolated job first ratio
              (emit (EvDifference first (image1 job))
                 (emit (EvGet (Some job)) (set_processing_queue rest st)))
            = (r2, st2) ∧ cache_ok st2) as (r2 & st2 & Hi & Hok2).
  { unfold interpolated.
    destruct (Qltb ratio (difference_threshold job)).
    - unfold mbind, M_bind.
      destruct (get_or_create (algorithm job) _) as [[p|e] st2] eqn:Hg;
        apply get_or_create_cache_ok in Hg; try by apply (cache_ok_same st).
      + rewrite process_eq.
        exists (process_output p first (image1 job)),
               (emit (EvProcess p first (image1 job)) st2).
        split; [done|]. by apply (cache_ok_same st2).
      + exists (Raise e), st2. by split.
    - eexists _, _. split; [done|]. by apply (cache_ok_same st). }
  rewrite Hi in Hb. destruct r2 as [v|e].
  - apply write_frames_writes_only in Hb as (_ & _ & _ & Hc & Hn & _).
    by apply (cache_ok_same st2).
  - by injection Hb as <- <-.
Qed.

Lemma run_loop_cache_ok (schedule : list (list env_action)) (st st' : State)
    (status : run_status) :
  run_loop schedule st = (status, st') -> cache_ok st -> cache_ok st'.
Proof.
  revert st. induction schedule as [|actions schedule IH]; intros st; simpl.
  - by destruct (running st); intros [= <- <-].
  - destruct (running st); [|by intros [= <- <-]].
    destruct (loop_body st) as [r st0] eqn:Hb.
    destruct (iteration st) as [o st1] eqn:Hit.
    destruct (iteration_after_body _ _ _ _ _ Hb Hit)
      as (_ & _ & _ & _ & Hc & Hn & _).
    intros Hrun Hok.
    assert (cache_ok st1) as Hok1.
    { apply (cache_ok_same st0); [done..|]. by eapply loop_body_cache_ok. }
    destruct o.
    + eapply IH; [exact Hrun|].
      destruct (env_steps_frame actions st1) as (_ & _ & Hn2 & _).
      apply (cache_ok_same st1); [apply env_steps_cache | done | done].
    + by injection Hrun as <- <-.
Qed.

(** X16. However long a worker runs and whatever it is given, its
    cache holds nothing but one Rife object for device 0 under the name
    of the one registered algorithm, and that object was constructed
    once. *)
Theorem worker_cache_invariant (schedule : list (list env_action))
    (queue : list Job) (frames : list (option Image)) (paused : bool)
    (status : run_status) (st' : State) :
  run schedule (__init__ queue frames paused) = (status, st') ->
  cache_ok st'
  ∧ (constructed st' <= 1)%nat
  ∧ ∀ name p, processor_objects st' !! name = Some p ->
              name = "rife"%string ∧ p = mkProcessor Rife 0 0.
Proof.
  intros Hrun.
  assert (cache_ok st') as Hok.
  { unfold run in Hrun.
    destruct (run_loop schedule _) as [[] st1] eqn:Hl;
      injection Hrun as <- <-;
      apply run_loop_cache_ok in Hl; try done;
      split; simpl; try done; intros name p; by rewrite lookup_empty. }
  destruct Hok as [Hent Hsize].
  assert (dom (processor_objects st') ⊆ dom ALGORITHM_CLASSES) as Hdom.
  { intros name [p Hp]%elem_of_dom. apply elem_of_dom.
    destruct (Hent _ _ Hp) as (Hk & _). by eexists. }
  assert (constructed st' <= 1)%nat as Hone.
  { rewrite <- Hsize, <- size_dom. apply subseteq_size in Hdom.
    unfold ALGORITHM_CLASSES in Hdom.
    by rewrite dom_singleton_L, size_singleton in Hdom. }
  split; [done|]. split; [done|].
  intros name p Hp. destruct (Hent _ _ Hp) as (Hk & Hg & Hid).
  split.
  - apply elem_of_dom_2 in Hk. unfold ALGORITHM_CLASSES in Hk.
    rewrite dom_singleton_L in Hk. by apply elem_of_singleton in Hk.
  - destruct p as [[] gpuid id]. simpl in *. f_equal; [done | lia].
Qed.

(** ** A whole queue *)

Lemma iteration_dequeues (st st' : State) (o : outcome) (job : Job)
    (rest : list Job) :
  pause st = false ->
  processing_queue st = job :: rest ->
  iteration st = (o, st') ->
  processing_queue st' = rest.
Proof.
  intros Hp Hq Hit.
  destruct (loop_body st) as [r st1] eqn:Hb.
  destruct (iteration_after_body _ _ _ _ _ Hb Hit) as (_ & _ & -> & _).
  rewrite (loop_body_job _ _ _ Hp Hq) in Hb.
  destruct (image0 job) as [first|]; [|by injection Hb as <- <-].
  rewrite interpolate_eq in Hb.
  destruct (estimator first (image1 job)) as [ratio|e];
    [|by injection Hb as <- <-].
  destruct (interpolated job first ratio _) as [[v|e] st2] eqn:Hg;
    apply interpolated_quiet in Hg as (_ & _ & Hq2 & _); simpl in Hq2.
  - apply write_frames_writes_only in Hb as (_ & _ & -> & _). done.
  - by injection Hb as <- <-.
Qed.

Lemma iteration_other_slots (st st' : State) (o : outcome) (job : Job)
    (rest : list Job) (i : nat) :
  pause st = false ->
  processing_queue st = job :: rest ->
  (is_Some (image0 job) ->
   0 < frame_index job ∧ Z.of_nat i ∉ job_slots job) ->
  iteration st = (o, st') ->
  processed_frames st' !! i = processed_frames st !! i.
Proof.
  intros Hp Hq Hi Hit.
  destruct (loop_body st) as [r st1] eqn:Hb.
  destruct (iteration_after_body _ _ _ _ _ Hb Hit) as (_ & _ & _ & -> & _).
  rewrite (loop_body_job _ _ _ Hp Hq) in Hb.
  destruct (image0 job) as [first|]; [|by injection Hb as <- <-].
  destruct Hi as [Hk Hi]; [by eexists|].
  rewrite interpolate_eq in Hb.
  destruct (estimator first (image1 job)) as [ratio|e];
    [|by injection Hb as <- <-].
  destruct (interpolated job first ratio _) as [[v|e] st2] eqn:Hg;
    apply interpolated_quiet in Hg as (_ & _ & _ & Hf & _); simpl in Hf.
  - rewrite (write_frames_other_slots _ _ _ _ _ _ _ Hk Hb Hi). by rewrite Hf.
  - injection Hb as <- <-. by rewrite Hf.
Qed.

Lemma job_slots_disjoint (job job' : Job) :
  0 < frame_index job -> 0 < frame_index job' ->
  frame_index job ≠ frame_index job' ->
  ((2 * frame_index job - 1) ∉ job_slots job')
  ∧ ((2 * frame_index job) ∉ job_slots job')
  ∧ (frame_index job = 1 -> 0 ∉ job_slots job').
Proof.
  intros Hk Hk' Hne. unfold job_slots.
  destruct (Z.eqb_spec (frame_index job') 1); simpl;
    rewrite !not_elem_of_cons; split_and!; try lia;
    try apply not_elem_of_nil; intros; split_and!; try lia;
    apply not_elem_of_nil.
Qed.

(** X17. A queue of jobs with distinct frame indices, positive on the
    jobs that carry a first frame, is processed in place: if no job
    fails, then after as many iterations as there are jobs the queue is
    empty and every job with index [k] and a first frame has its second
    frame in slot [2k], an image in slot [2k-1], and for [k = 1] its
    first frame in slot 0; no later job has overwritten them. *)
Theorem queue_processed_in_place (jobs : list Job) (st st' : State) :
  running st = true ->
  pause st = false ->
  processing_queue st = jobs ->
  Forall (fun job => is_Some (image0 job) -> 0 < frame_index job) jobs ->
  NoDup (frame_index <$> jobs) ->
  run_loop (replicate (length jobs) []) st = (StillRunning, st') ->
  processing_queue st' = []
  ∧ ∀ job first, job ∈ jobs -> image0 job = Some first ->
      slot st' (2 * frame_index job) (image1 job)
      ∧ (∃ im, slot st' (2 * frame_index job - 1) im)
      ∧ (frame_index job = 1 -> slot st' 0 first).
Proof.
  intros Hr Hp Hq Hwf Hnd Hrun.
  assert (processing_queue st' = []
          ∧ (∀ i : nat,
               (∀ job, job ∈ jobs -> is_Some (image0 job) ->
                       Z.of_nat i ∉ job_slots job) ->
               processed_frames st' !! i = processed_frames st !! i)
          ∧ ∀ job first, job ∈ jobs -> image0 job = Some first ->
              slot st' (2 * frame_index job) (image1 job)
              ∧ (∃ im, slot st' (2 * frame_index job - 1) im)
              ∧ (frame_index job = 1 -> slot st' 0 first))
    as (H1 & _ & H3); [|done].
  revert st Hr Hp Hq Hnd Hrun.
  induction Hwf as [|job rest Hjob Hwf IH]; intros st Hr Hp Hq Hnd; simpl.
  { rewrite Hr. intros [= <-]. split; [done|]. split; [done|].
    intros job first Hin. by apply elem_of_nil in Hin. }
  rewrite Hr. destruct (iteration st) as [[] st1] eqn:Hit; [|done].
  simpl. intros Hrun.
  rewrite fmap_cons in Hnd. apply NoDup_cons in Hnd as [Hfresh Hnd].
  pose proof (iteration_dequeues _ _ _ _ _ Hp Hq Hit) as Hq1.
  destruct (iteration_shape _ _ _ Hit) as (Hr1 & Hp1 & _).
  rewrite Hr in Hr1. rewrite Hp in Hp1.
  destruct (IH st1 Hr1 Hp1 Hq1 Hnd Hrun) as (HQ & Hframe & Hslots).
  split; [done|]. split.
  - intros i Hi. rewrite Hframe.
    + apply (iteration_other_slots st st1 Continue job rest i Hp Hq); [|done].
      intros Hsome. split; [by apply Hjob|]. apply Hi; [by left | done].
    + intros job' Hin. apply Hi. by right.
  - intros job' first Hin Hf.
    apply elem_of_cons in Hin as [-> | Hin]; [|by eapply Hslots].
    assert (0 < frame_index job) as Hk by (apply Hjob; by eexists).
    apply iteration_ok in Hit as [u Hb].
    destruct (loop_body_job_ok _ _ _ _ _ _ Hp Hq Hf Hb)
      as (ratio & v & st2 & st3 & _ & _ & _ & Hw).
    apply write_frames_ok in Hw as ([_ S1] & [_ S2] & S0); [|done].
    assert (∀ i, 0 <= i ->
              (∀ job', job' ∈ rest -> is_Some (image0 job') ->
                       i ∉ job_slots job') ->
              processed_frames st' !! Z.to_nat i
              = processed_frames st1 !! Z.to_nat i) as Hkeep.
    { intros i Hi Hno. apply Hframe. intros job' Hin' Hsome.
      rewrite Z2Nat.id by done. by apply Hno. }
    assert (∀ job', job' ∈ rest -> is_Some (image0 job') ->
              ((2 * frame_index job - 1) ∉ job_slots job')
              ∧ ((2 * frame_index job) ∉ job_slots job')
              ∧ (frame_index job = 1 -> 0 ∉ job_slots job')) as Hdis.
    { intros job' Hin' Hsome. apply job_slots_disjoint; [done| |].
      - rewrite Forall_forall in Hwf. by apply Hwf.
      - intros E. apply Hfresh. rewrite E. apply list_elem_of_fmap.
        by exists job'. }
    unfold slot. split_and!.
    + lia.
    + rewrite Hkeep; [done | lia |]. intros job' ? ?. by apply Hdis.
    + exists v. split; [lia|].
      rewrite Hkeep; [done | lia |]. intros job' ? ?. by apply Hdis.
    + intros E1. destruct (S0 E1) as [_ S0']. split; [lia|].
      rewrite Hkeep; [done | lia |]. intros job' ? ?. by apply Hdis.
Qed.

(** With a ratio of at most 100, a job whose threshold is above 100
    and which is processed without error has the processor's output in
    slot [2k-1]. *)
Lemma bounded_ratio_always_interpolates (st st' : State) (job : Job)
    (rest : list Job) (first : Image) :
  (∀ r, estimator first (image1 job) = Ok r -> (r <= 100)%Q) ->
  pause st = false ->
  processing_queue st = job :: rest ->
  image0 job = Some first ->
  0 < frame_index job ->
  (100 < difference_threshold job)%Q ->
  iteration st = (Continue, st') ->
  ∃ p out,
    processor_objects st' !! algorithm job = Some p
    ∧ process_output p first (image1 job) = Ok out
    ∧ slot st' (2 * frame_index job - 1) out.
Proof.
  intros Hbound Hp Hq Hf Hk Hthr [u Hb]%iteration_ok.
  destruct (loop_body_job_ok _ _ _ _ _ _ Hp Hq Hf Hb)
    as (ratio & v & st1 & st2 & Hr & _ & Hi & Hw).
  pose proof (Hbound _ Hr) as Hhi.
  assert (Qltb ratio (difference_threshold job) = true) as Hlt
    by (apply Qltb_lt; lra).
  destruct (interpolated_below _ _ _ _ _ _ Hlt Hi) as (p & Hp1 & Hp2 & _).
  destruct (write_frames_ok _ _ _ _ _ Hk Hw) as (Hslot & _ & _).
  apply write_frames_writes_only in Hw as (_ & _ & _ & Hc & _).
  exists p, v. by rewrite Hc.
Qed.

End Worker.

(** ** The loop with the source's estimator *)

(** X13. When the estimator raises (a frame is not an 8-bit image, the
    frames differ in their number of bands, or there is nothing to
    average), the job is consumed, the error is logged and the loop is
    left; no slot is written. *)
Theorem estimator_failure_terminates (Rife_init : Z -> result unit)
    (Rife_process : Z -> Image -> Image -> result Image)
    (float_sum : list spec_float -> spec_float)
    (st : State) (job : Job) (rest : list Job) (first : Image) (e : exn) :
  running st = true ->
  pause st = false ->
  processing_queue st = job :: rest ->
  image0 job = Some first ->
  double_ratio float_sum first (image1 job) = Raise e ->
  let st' := emit (EvException e)
               (emit (EvDifference first (image1 job))
                  (emit (EvGet (Some job)) (set_processing_queue rest st))) in
  iteration Rife_init Rife_process (double_ratio float_sum) st = (Break, st')
  ∧ processed_frames st' = processed_frames st
  ∧ ∀ actions schedule,
      run_loop Rife_init Rife_process (double_ratio float_sum)
        (actions :: schedule) st
      = (Exited, st').
Proof.
  intros Hrun Hp Hq Hf Hr.
  apply estimator_failure_breaks; try done.
  all: by destruct (double_ratio_raises _ _ _ _ Hr) as [->|[->| ->]].
Qed.

(** X15. A threshold of 0 or less switches interpolation off: the
    ratio is never negative, so such a job never looks up, constructs or
    invokes a processor, whatever its frames and its algorithm.  (The
    means are summed from left to right.) *)
Theorem nonpositive_threshold_never_interpolates
    (Rife_init : Z -> result unit)
    (Rife_process : Z -> Image -> Image -> result Image)
    (st st' : State) (o : outcome) (job : Job) (rest : list Job) :
  pause st = false ->
  processing_queue st = job :: rest ->
  (difference_threshold job <= 0)%Q ->
  iteration Rife_init Rife_process ratio_3_11 st = (o, st') ->
  processor_objects st' = processor_objects st
  ∧ constructed st' = constructed st
  ∧ Forall (fun e => is_processor_event e = false) (new_events st st').
Proof.
  intros Hp Hq Hthr Hit.
  eapply nonnegative_ratio_never_interpolates; try done.
  apply ratio_3_11_nonneg.
Qed.


(** ** The theorems at work on the three-frame sequence *)

(** The sequence [F1, F2, F3] with threshold 10 and the stub processor:
    the worker fills the five slots and stops on SIGTERM. *)
Example three_frames :
  let final := run stub_init stub_process ratio_3_11
                 [[]; []; []; [Sigterm]; []]
                 (__init__ [job_first; job_one; job_two] (replicate 5 None) false) in
  fst final = Exited
  ∧ processed_frames (snd final)
    = [Some F1; Some [[[12; 20]; [30; 44]]]; Some F2; Some F2; Some F3]
  ∧ processing_queue (snd final) = [].
Proof. vm_compute. done. Qed.

(** A runtime without its model files: the constructor raises, the
    worker logs the error and leaves the loop with the second job still
    queued and no slot written. *)
Example broken_runtime_stops_worker :
  let final := run_loop broken_init stub_process ratio_3_11 [[]; []]
                 (started [job_one; job_two] false) in
  fst final = Exited
  ∧ processed_frames (snd final) = replicate 5 None
  ∧ processing_queue (snd final) = [job_two]
  ∧ head (trace (snd final))
    = Some (EvException (RuntimeError "model not found")).
Proof. vm_compute. done. Qed.

(** A pause and resume cycle: while the flag is set the worker sleeps,
    a job put on the queue meanwhile waits behind the first, and both are
    processed in order once the flag is cleared. *)
Example pause_resume_cycle :
  let final := run stub_init stub_process ratio_3_11
                 [[Put job_two]; [SetPause false]; []; [Sigterm]; []]
                 (__init__ [job_one] (replicate 5 None) true) in
  fst final = Exited
  ∧ processed_frames (snd final)
    = [Some F1; Some [[[12; 20]; [30; 44]]]; Some F2; Some F2; Some F3]
  ∧ List.filter (fun e => is_get e || match e with EvSleep => true | _ => false end)
                (rev (trace (snd final)))
    = [EvSleep; EvSleep; EvGet (Some job_one); EvGet (Some job_two)].
Proof. vm_compute. done. Qed.

(** The doubles next to a threshold.  One pixel of five differing by 51
    gives 3.9999999999999996, which is below 4.0: the frame is
    interpolated, where the exact ratio 4 would reuse the first frame.
    One pixel of twenty differing by 153 gives 3.0000000000000004: with
    that threshold the first frame is reused. *)
Example ratio_next_to_threshold :
  difference_ratio Float.sum F_dark5 F_spot5
  = Ok (S754_finite false 9007199254740991 (-51))
  ∧ ratio_3_11 F_dark5 F_spot5 = Ok below_4
  ∧ Exact.difference_ratio F_dark5 F_spot5 = Ok (5100 # 1275)
  ∧ ratio_3_11 F_dark20 F_spot20 = Ok above_3
  ∧ processed_frames
      (snd (iteration stub_init stub_process ratio_3_11
              (started [job_below] false)))
    = [Some F_dark5; Some F_spot5; Some F_spot5; None; None]
  ∧ processed_frames
      (snd (iteration stub_init stub_process Exact.difference_ratio
              (started [job_below] false)))
    = [Some F_dark5; Some F_dark5; Some F_spot5; None; None].
Proof. vm_compute. done. Qed.

(** The interpreter's [sum] shows in the last bit.  On three bands with
    the means 0.1, 0.2 and 0.3 the ratio is 0.07843137254901962 up to
    Python 3.11 and 0.0784313725490196 from 3.12 on; on frames with a
    single band, as in the examples here, the two agree. *)
Example ratio_depends_on_the_interpreter :
  ratio_3_11 F_dark30 F_spot30 = Ok (5651576002974741 # 72057594037927936)
  ∧ ratio_3_12 F_dark30 F_spot30 = Ok (5651576002974740 # 72057594037927936)
  ∧ ratio_3_12 F_dark5 F_spot5 = ratio_3_11 F_dark5 F_spot5
  ∧ ratio_3_12 F_dark20 F_spot20 = ratio_3_11 F_dark20 F_spot20
  ∧ ratio_3_12 F1 F2 = ratio_3_11 F1 F2
  ∧ ratio_3_12 F2 F3 = ratio_3_11 F2 F3.
Proof. vm_compute. done. Qed.



Lemma both_slots_populated_witness :
  let st := started [job_one; job_two] false in
  let st' := snd (iteration stub_init stub_process ratio_3_11 st) in
  iteration stub_init stub_process ratio_3_11 st = (Continue, st')
  ∧ (∃ im, slot st' 1 im) ∧ slot st' 2 F2.
Proof.
  intros st st'.
  assert (iteration stub_init stub_process ratio_3_11 st = (Continue, st'))
    as Hit by (vm_compute; reflexivity).
  split; [exact Hit|].
  refine (both_slots_populated stub_init stub_process ratio_3_11 st st'
            job_one [job_two] F1 _ _ _ _ Hit); vm_compute; reflexivity.
Defined.

Lemma interpolated_slot_by_threshold_witness :
  let st := started [job_below] false in
  let st' := snd (iteration stub_init stub_process ratio_3_11 st) in
  let su := started [job_at] false in
  let su' := snd (iteration stub_init stub_process ratio_3_11 su) in
  (ratio_3_11 F_dark5 F_spot5 = Ok below_4
   ∧ (below_4 < difference_threshold job_below)%Q
   ∧ ∃ p out,
       processor_objects st' !! "rife"%string = Some p
       ∧ process_output stub_process p F_dark5 F_spot5 = Ok out
       ∧ EvProcess p F_dark5 F_spot5 ∈ new_events st st'
       ∧ slot st' 1 out)
  ∧ (ratio_3_11 F_dark20 F_spot20 = Ok above_3
     ∧ (difference_threshold job_at <= above_3)%Q
     ∧ slot su' 3 F_dark20
     ∧ Forall (fun e => is_processor_event e = false) (new_events su su')).
Proof.
  intros st st' su su'.
  assert (ratio_3_11 F_dark5 F_spot5 = Ok below_4) as Hr1
    by (vm_compute; reflexivity).
  assert (below_4 < difference_threshold job_below)%Q as Hlt
    by (vm_compute; reflexivity).
  assert (ratio_3_11 F_dark20 F_spot20 = Ok above_3) as Hr2
    by (vm_compute; reflexivity).
  assert (difference_threshold job_at <= above_3)%Q as Hge
    by (vm_compute; discriminate).
  split.
  - split; [exact Hr1|]. split; [exact Hlt|].
    destruct (interpolated_slot_by_threshold stub_init stub_process
                ratio_3_11 st st' job_below [] F_dark5)
      as (ratio & Hr & Hbelow & _); try (vm_compute; reflexivity).
    assert (Ok ratio = Ok below_4) as [= ->]
      by (rewrite <- Hr; exact Hr1).
    exact (Hbelow Hlt).
  - split; [exact Hr2|]. split; [exact Hge|].
    destruct (interpolated_slot_by_threshold stub_init stub_process
                ratio_3_11 su su' job_at [] F_dark20)
      as (ratio & Hr & _ & Habove); try (vm_compute; reflexivity).
    assert (Ok ratio = Ok above_3) as [= ->]
      by (rewrite <- Hr; exact Hr2).
    exact (Habove Hge).
Defined.

Lemma processor_constructed_once_witness :
  let st := started [] false in
  processor_objects st !! "rife"%string = None
  ∧ ALGORITHM_CLASSES !! "rife"%string = Some Rife
  ∧ class_init stub_init Rife 0 = Ok tt
  ∧ ∃ p st1,
      get_or_create stub_init "rife" st = (Ok p, st1)
      ∧ p = mkProcessor Rife 0 (constructed st)
      ∧ constructed st1 = S (constructed st)
      ∧ new_events st st1 = [EvConstruct Rife 0; EvClassLookup "rife"]
      ∧ processor_objects st1 = <["rife"%string := p]> (processor_objects st)
      ∧ get_or_create stub_init "rife" st1 = (Ok p, st1)
      ∧ ∀ schedule status st2,
          run_loop stub_init stub_process ratio_3_11 schedule st1
          = (status, st2) ->
          processor_objects st2 !! "rife"%string = Some p
          ∧ get_or_create stub_init "rife" st2 = (Ok p, st2).
Proof.
  intros st.
  assert (processor_objects st !! "rife"%string = None) as H1
    by (vm_compute; reflexivity).
  assert (ALGORITHM_CLASSES !! "rife"%string = Some Rife) as H2
    by (vm_compute; reflexivity).
  assert (class_init stub_init Rife 0 = Ok tt) as H3 by reflexivity.
  split; [exact H1|]. split; [exact H2|]. split; [exact H3|].
  exact (processor_constructed_once stub_init stub_process ratio_3_11 st
           "rife" Rife H1 H2 H3).
Defined.



Lemma first_frame_absent_discards_witness :
  let st := started [job_first; job_one] false in
  ∃ st',
    iteration stub_init stub_process ratio_3_11 st = (Continue, st')
    ∧ new_events st st' = [EvGet (Some job_first)]
    ∧ processing_queue st' = [job_one]
    ∧ processed_frames st' = processed_frames st
    ∧ processor_objects st' = processor_objects st
    ∧ constructed st' = constructed st
    ∧ running st' = running st.
Proof.
  intros st.
  refine (first_frame_absent_discards stub_init stub_process ratio_3_11 st
            job_first [job_one] _ _ _); vm_compute; reflexivity.
Defined.

Lemma paused_worker_only_sleeps_witness :
  let st := started [job_one; job_two] true in
  pause st = true
  ∧ iteration stub_init stub_process ratio_3_11 st
    = (Continue, emit EvSleep st)
  ∧ (∀ schedule status st',
       Forall (Forall (fun a => a ≠ SetPause false)) schedule ->
       run_loop stub_init stub_process ratio_3_11 schedule st
       = (status, st') ->
       processing_queue st `prefix_of` processing_queue st'
       ∧ processed_frames st' = processed_frames st
       ∧ Forall (fun e => e = EvSleep) (new_events st st'))
  ∧ (∀ st0 o st1 job,
       iteration stub_init stub_process ratio_3_11 st0 = (o, st1) ->
       EvGet job ∈ new_events st0 st1 ->
       pause st0 = false).
Proof.
  intros st.
  assert (pause st = true) as Hp by reflexivity.
  split; [exact Hp|].
  exact (paused_worker_only_sleeps stub_init stub_process ratio_3_11 st Hp).
Defined.

Lemma construction_failure_terminates_witness :
  let st := started [job_below_unknown; job_two] false in
  ratio_3_11 F_dark5 F_spot5 = Ok below_4
  ∧ (below_4 < difference_threshold job_below_unknown)%Q
  ∧ ALGORITHM_CLASSES !! algorithm job_below_unknown = None
  ∧ ∃ st',
      iteration stub_init stub_process ratio_3_11 st = (Break, st')
      ∧ processed_frames st' = processed_frames st
      ∧ processing_queue st' = [job_two]
      ∧ processor_objects st' = processor_objects st
      ∧ Forall (fun e => is_setitem e = false
                         ∧ (is_get e = true
                            -> e = EvGet (Some job_below_unknown)))
               (new_events st st')
      ∧ ∀ actions schedule,
          run_loop stub_init stub_process ratio_3_11 (actions :: schedule) st
          = (Exited, st').
Proof.
  intros st.
  assert (ratio_3_11 F_dark5 F_spot5 = Ok below_4) as Hr
    by (vm_compute; reflexivity).
  assert (below_4 < difference_threshold job_below_unknown)%Q as Hlt
    by (vm_compute; reflexivity).
  assert (ALGORITHM_CLASSES !! algorithm job_below_unknown = None) as Hk
    by (vm_compute; reflexivity).
  split; [exact Hr|]. split; [exact Hlt|]. split; [exact Hk|].
  refine (construction_failure_terminates stub_init stub_process ratio_3_11
            st job_below_unknown [job_two] F_dark5 below_4
            _ _ _ _ Hr Hlt _ (or_introl Hk));
    vm_compute; reflexivity.
Defined.

Lemma stop_observed_at_loop_top_witness :
  let st := started [job_one; job_two] false in
  let st1 := snd (iteration stub_init stub_process ratio_3_11 st) in
  let final := foldl env_step st1 [Sigterm] in
  running st = true
  ∧ iteration stub_init stub_process ratio_3_11 st = (Continue, st1)
  ∧ running final = false
  ∧ run_loop stub_init stub_process ratio_3_11 [[Sigterm]; []; []] st
    = (Exited, final)
  ∧ trace final = trace st1
  ∧ processed_frames final = processed_frames st1
  ∧ processing_queue st1 `prefix_of` processing_queue final
  ∧ ∀ st0 schedule0,
      run_loop stub_init stub_process ratio_3_11 schedule0 (_stop st0)
      = (Exited, _stop st0).
Proof.
  intros st st1 final.
  assert (running st = true) as Hr by reflexivity.
  assert (iteration stub_init stub_process ratio_3_11 st = (Continue, st1))
    as Hit by (vm_compute; reflexivity).
  assert (Sigterm ∈ [Sigterm]) as Hin by constructor.
  split; [exact Hr|]. split; [exact Hit|].
  exact (stop_observed_at_loop_top stub_init stub_process ratio_3_11
           [[]; []] [Sigterm] st st1 Hr Hit Hin).
Defined.

Lemma scene_change_skips_processor_witness :
  let st := started [job_at] false in
  ratio_3_11 F_dark20 F_spot20 = Ok above_3
  ∧ (difference_threshold job_at <= above_3)%Q
  ∧ ALGORITHM_CLASSES !! algorithm job_at = None
  ∧ ∃ o st',
      iteration stub_init stub_process ratio_3_11 st = (o, st')
      ∧ processor_objects st' = processor_objects st
      ∧ constructed st' = constructed st
      ∧ Forall (fun e => is_processor_event e = false) (new_events st st')
      ∧ (0 < 2 -> 2 * 2 < 5 ->
         o = Continue ∧ slot st' 3 F_dark20 ∧ slot st' 4 F_spot20).
Proof.
  intros st.
  assert (ratio_3_11 F_dark20 F_spot20 = Ok above_3) as Hr
    by (vm_compute; reflexivity).
  assert (difference_threshold job_at <= above_3)%Q as Hge
    by (vm_compute; discriminate).
  split; [exact Hr|]. split; [exact Hge|].
  split; [vm_compute; reflexivity|].
  refine (scene_change_skips_processor stub_init stub_process ratio_3_11 st
            job_at [] F_dark20 above_3 _ _ _ Hr Hge);
    vm_compute; reflexivity.
Defined.

(** ** The further properties at work *)

(** The failures of the estimator on concrete frames: a pixel that is
    no 8-bit value, different numbers of bands. *)
Example estimator_edge_cases :
  ratio_3_11 [[[256]]] [[[0]]] = Raise ValueError
  ∧ ratio_3_12 [[[256]]] [[[0]]] = Raise ValueError
  ∧ ratio_3_11 F_two_bands F1 = Raise ValueError
  ∧ ratio_3_12 F_two_bands F1 = Raise ValueError.
Proof. by vm_compute. Qed.



Lemma iteration_keeps_flags_and_slots_witness :
  let st := started [job_one; job_two] false in
  let st' := snd (iteration stub_init stub_process ratio_3_11 st) in
  iteration stub_init stub_process ratio_3_11 st = (Continue, st')
  ∧ running st' = running st
  ∧ pause st' = pause st
  ∧ length (processed_frames st') = length (processed_frames st)
  ∧ (processing_queue st' = processing_queue st
     ∨ ∃ job, processing_queue st = job :: processing_queue st'
              ∧ EvGet (Some job) ∈ new_events st st').
Proof.
  intros st st'.
  assert (iteration stub_init stub_process ratio_3_11 st = (Continue, st'))
    as Hit by (vm_compute; reflexivity).
  split; [exact Hit|].
  exact (iteration_keeps_flags_and_slots stub_init stub_process ratio_3_11
           st st' Continue Hit).
Defined.

Lemma only_sigterm_clears_running_witness :
  let st := started [job_one_unknown; job_two] false in
  let final := run_loop stub_init stub_process ratio_3_11 [[]; []] st in
  fst final = Exited
  ∧ length (processed_frames (snd final)) = length (processed_frames st)
  ∧ (Forall (Forall (fun a => a ≠ Sigterm)) [[]; []] ->
     running (snd final) = running st).
Proof.
  intros st final. split; [vm_compute; reflexivity|].
  refine (only_sigterm_clears_running stub_init stub_process ratio_3_11
            [[]; []] st (snd final) Exited _).
  vm_compute; reflexivity.
Defined.

Lemma queue_is_fifo_witness :
  let st := started [job_one] false in
  let schedule := [[Put job_two]; []; [Sigterm]; []] in
  let final := run_loop stub_init stub_process ratio_3_11 schedule st in
  fst final = Exited
  ∧ ∃ puts,
      puts `prefix_of` put_jobs (concat schedule)
      ∧ dequeued (new_events st (snd final)) ++ processing_queue (snd final)
        = processing_queue st ++ puts.
Proof.
  intros st schedule final. split; [vm_compute; reflexivity|].
  refine (queue_is_fifo stub_init stub_process ratio_3_11 schedule st
            (snd final) Exited _).
  vm_compute; reflexivity.
Defined.

Lemma idle_worker_only_polls_witness :
  let st := started [] false in
  let schedule := [[]; [SetPause true]; [Sigterm]; []] in
  let final := run_loop stub_init stub_process ratio_3_11 schedule st in
  processing_queue st = []
  ∧ Forall (Forall (fun a => ∀ job, a ≠ Put job)) schedule
  ∧ processing_queue (snd final) = []
  ∧ processed_frames (snd final) = processed_frames st
  ∧ processor_objects (snd final) = processor_objects st
  ∧ Forall (fun e => e = EvSleep ∨ e = EvGet None) (new_events st (snd final)).
Proof.
  intros st schedule final.
  assert (processing_queue st = []) as Hq by reflexivity.
  assert (Forall (Forall (fun a => ∀ job, a ≠ Put job)) schedule) as Hs
    by (repeat constructor; discriminate).
  split; [exact Hq|]. split; [exact Hs|].
  refine (idle_worker_only_polls stub_init stub_process ratio_3_11 schedule
            st (snd final) (fst final) Hq Hs _).
  vm_compute; reflexivity.
Defined.

Lemma job_writes_only_its_slots_witness :
  let st := started [job_two] false in
  let st' := snd (iteration stub_init stub_process ratio_3_11 st) in
  iteration stub_init stub_process ratio_3_11 st = (Continue, st')
  ∧ (Z.of_nat 0 ∉ job_slots job_two)
  ∧ processed_frames st' !! 0%nat = processed_frames st !! 0%nat.
Proof.
  intros st st'.
  assert (iteration stub_init stub_process ratio_3_11 st = (Continue, st'))
    as Hit by (vm_compute; reflexivity).
  assert (Z.of_nat 0 ∉ job_slots job_two) as Hi
    by (apply (bool_decide_unpack (Z.of_nat 0 ∉ job_slots job_two));
        vm_compute; exact I).
  split; [exact Hit|]. split; [exact Hi|].
  refine (job_writes_only_its_slots stub_init stub_process ratio_3_11 st st'
            Continue job_two [] 0%nat _ _ _ Hit Hi); vm_compute; reflexivity.
Defined.

Lemma frame_index_out_of_range_breaks_witness :
  let st := started [job_three; job_two] false in
  Z.of_nat (length (processed_frames st)) <= 2 * frame_index job_three
  ∧ ∃ st', iteration stub_init stub_process ratio_3_11 st = (Break, st')
           ∧ processing_queue st' = [job_two].
Proof.
  intros st.
  assert (Z.of_nat (length (processed_frames st)) <= 2 * frame_index job_three)
    as Hlen by (vm_compute; discriminate).
  split; [exact Hlen|].
  refine (frame_index_out_of_range_breaks stub_init stub_process ratio_3_11
            st job_three [job_two] F2 _ _ _ _ Hlen); vm_compute; reflexivity.
Defined.

Lemma failed_write_keeps_earlier_writes_witness :
  let st := started_short [job_at] in
  Z.of_nat (length (processed_frames st)) = 2 * frame_index job_at
  ∧ ratio_3_11 F_dark20 F_spot20 = Ok above_3
  ∧ (difference_threshold job_at <= above_3)%Q
  ∧ ∃ st',
      iteration stub_init stub_process ratio_3_11 st = (Break, st')
      ∧ head (trace st') = Some (EvException IndexError)
      ∧ slot st' 3 F_dark20
      ∧ (frame_index job_at = 1 -> slot st' 0 F_dark20).
Proof.
  intros st.
  assert (Z.of_nat (length (processed_frames st)) = 2 * frame_index job_at)
    as Hlen by reflexivity.
  assert (ratio_3_11 F_dark20 F_spot20 = Ok above_3) as Hr
    by (vm_compute; reflexivity).
  assert (difference_threshold job_at <= above_3)%Q as Hge
    by (vm_compute; discriminate).
  split; [exact Hlen|]. split; [exact Hr|]. split; [exact Hge|].
  refine (failed_write_keeps_earlier_writes stub_init stub_process
            ratio_3_11 st job_at [] F_dark20 above_3 _ _ _ _ Hlen Hr Hge);
    vm_compute; reflexivity.
Defined.

Lemma nonpositive_frame_index_wraps_witness :
  let st := started [job_at_zero] false in
  frame_index job_at_zero <= 0
  ∧ ratio_3_11 F_dark20 F_spot20 = Ok above_3
  ∧ (difference_threshold job_at_zero <= above_3)%Q
  ∧ ∃ st',
      iteration stub_init stub_process ratio_3_11 st = (Continue, st')
      ∧ processed_frames st' !! 4%nat = Some (Some F_dark20)
      ∧ processed_frames st' !! 0%nat = Some (Some F_spot20).
Proof.
  intros st.
  assert (frame_index job_at_zero <= 0) as Hk by (vm_compute; discriminate).
  assert (ratio_3_11 F_dark20 F_spot20 = Ok above_3) as Hr
    by (vm_compute; reflexivity).
  assert (difference_threshold job_at_zero <= above_3)%Q as Hge
    by (vm_compute; discriminate).
  split; [exact Hk|]. split; [exact Hr|]. split; [exact Hge|].
  refine (nonpositive_frame_index_wraps stub_init stub_process ratio_3_11
            st job_at_zero [] F_dark20 above_3 _ _ _ Hk _ Hr Hge);
    vm_compute; reflexivity.
Defined.

Lemma estimator_failure_terminates_witness :
  let st := started [job_mismatch; job_two] false in
  let st' := emit (EvException ValueError)
               (emit (EvDifference F_two_bands F1)
                  (emit (EvGet (Some job_mismatch))
                     (set_processing_queue [job_two] st))) in
  ratio_3_11 F_two_bands F1 = Raise ValueError
  ∧ iteration stub_init stub_process ratio_3_11 st = (Break, st')
  ∧ processed_frames st' = processed_frames st
  ∧ ∀ actions schedule,
      run_loop stub_init stub_process ratio_3_11 (actions :: schedule) st
      = (Exited, st').
Proof.
  intros st st'.
  assert (ratio_3_11 F_two_bands F1 = Raise ValueError) as Hr
    by (vm_compute; reflexivity).
  split; [exact Hr|].
  refine (estimator_failure_terminates stub_init stub_process Float.sum st
            job_mismatch [job_two] F_two_bands ValueError _ _ _ _ Hr);
    vm_compute; reflexivity.
Defined.

Lemma processor_failure_terminates_witness :
  let st := started [job_below; job_two] false in
  ratio_3_11 F_dark5 F_spot5 = Ok below_4
  ∧ (below_4 < difference_threshold job_below)%Q
  ∧ (∀ p, process_output failing_process p F_dark5 F_spot5
          = Raise (RuntimeError "vkQueueSubmit failed"))
  ∧ ∃ st',
      iteration stub_init failing_process ratio_3_11 st = (Break, st')
      ∧ processed_frames st' = processed_frames st
      ∧ processing_queue st' = [job_two]
      ∧ is_Some (processor_objects st' !! "rife"%string)
      ∧ Forall (fun ev => is_setitem ev = false) (new_events st st')
      ∧ ∀ actions schedule,
          run_loop stub_init failing_process ratio_3_11
            (actions :: schedule) st
          = (Exited, st').
Proof.
  intros st.
  assert (ratio_3_11 F_dark5 F_spot5 = Ok below_4) as Hr
    by (vm_compute; reflexivity).
  assert (below_4 < difference_threshold job_below)%Q as Hlt
    by (vm_compute; reflexivity).
  assert (∀ p, process_output failing_process p F_dark5 F_spot5
               = Raise (RuntimeError "vkQueueSubmit failed")) as Hfail
    by (intros [[] ? ?]; reflexivity).
  split; [exact Hr|]. split; [exact Hlt|]. split; [exact Hfail|].
  refine (processor_failure_terminates stub_init failing_process ratio_3_11
            st job_below [job_two] F_dark5 below_4
            (RuntimeError "vkQueueSubmit failed") _ _ _ _ Hr Hlt _ Hfail);
    try (vm_compute; reflexivity).
  right. exists Rife. split; vm_compute; reflexivity.
Defined.

Lemma nonpositive_threshold_never_interpolates_witness :
  let st := started [job_never] false in
  let st' := snd (iteration stub_init stub_process ratio_3_11 st) in
  (difference_threshold job_never <= 0)%Q
  ∧ iteration stub_init stub_process ratio_3_11 st = (Continue, st')
  ∧ processor_objects st' = processor_objects st
  ∧ constructed st' = constructed st
  ∧ Forall (fun e => is_processor_event e = false) (new_events st st').
Proof.
  intros st st'.
  assert (difference_threshold job_never <= 0)%Q as Hthr
    by (unfold Qle; simpl; lia).
  assert (iteration stub_init stub_process ratio_3_11 st = (Continue, st'))
    as Hit by (vm_compute; reflexivity).
  split; [exact Hthr|]. split; [exact Hit|].
  refine (nonpositive_threshold_never_interpolates stub_init stub_process
            st st' Continue job_never [] _ _ Hthr Hit);
    vm_compute; reflexivity.
Defined.

Lemma worker_cache_invariant_witness :
  let schedule := [[]; []; []; [Sigterm]; []] in
  let final := run stub_init stub_process ratio_3_11 schedule
                 (__init__ [job_first; job_one; job_two]
                    (replicate 5 None) false) in
  fst final = Exited
  ∧ cache_ok (snd final)
  ∧ (constructed (snd final) <= 1)%nat
  ∧ ∀ name p, processor_objects (snd final) !! name = Some p ->
              name = "rife"%string ∧ p = mkProcessor Rife 0 0.
Proof.
  intros schedule final. split; [vm_compute; reflexivity|].
  refine (worker_cache_invariant stub_init stub_process ratio_3_11 schedule
            [job_first; job_one; job_two] (replicate 5 None) false
            Exited (snd final) _).
  vm_compute; reflexivity.
Defined.

Lemma queue_processed_in_place_witness :
  let jobs := [job_first; job_one; job_two] in
  let st := started jobs false in
  let st' := snd (run_loop stub_init stub_process ratio_3_11
                    (replicate (length jobs) []) st) in
  Forall (fun job => is_Some (image0 job) -> 0 < frame_index job) jobs
  ∧ NoDup (frame_index <$> jobs)
  ∧ processing_queue st' = []
  ∧ ∀ job first, job ∈ jobs -> image0 job = Some first ->
      slot st' (2 * frame_index job) (image1 job)
      ∧ (∃ im, slot st' (2 * frame_index job - 1) im)
      ∧ (frame_index job = 1 -> slot st' 0 first).
Proof.
  intros jobs st st'.
  assert (Forall (fun job => is_Some (image0 job) -> 0 < frame_index job) jobs)
    as Hwf.
  { repeat constructor.
    intros [x Hx]. vm_compute in Hx. discriminate. }
  assert (NoDup (frame_index <$> jobs)) as Hnd
    by (apply (bool_decide_unpack (NoDup (frame_index <$> jobs)));
        vm_compute; exact I).
  split; [exact Hwf|]. split; [exact Hnd|].
  refine (queue_processed_in_place stub_init stub_process ratio_3_11 jobs
            st st' _ _ _ Hwf Hnd _); vm_compute; reflexivity.
Defined.

